(** * GapAdvertisingData: the advertising payload store of BLE_API

    A shallow embedding of [ble/GapAdvertisingData.h].  The class owns a
    31-byte array [_payload], a [uint8_t] occupancy counter [_payloadLen]
    and a cached 16-bit [_appearance].  Records are laid out back to back
    as [length byte][type byte][value bytes].

    Modelling choices.
    - [uint8_t] and [uint16_t] values are integers in [Z]; every place
      where the source converts to a narrow unsigned type is written
      out with [u8] / [u16].
    - A pointer into [_payload] is the index it points at; [NULL] is
      [None].  An argument pointer [const uint8_t *payload] is [None]
      for [NULL] and [Some bytes] for a pointer to the caller's array.
    - Member functions are computations in a state-and-error monad [M].
      An access outside an array is undefined behaviour in C++; the
      model stops with [OutOfBounds] there.  Loops take fuel, and a
      loop that exhausts it stops with [Diverges]. *)

From Stdlib Require Import ZArith Lia.
From stdpp Require Import base tactics list.

Local Open Scope Z_scope.

(** ** Machine integers *)

Definition u8 (x : Z) : Z := x mod 256.
Definition u16 (x : Z) : Z := x mod 65536.

Definition GAP_ADVERTISING_DATA_MAX_PAYLOAD : Z := 31.

(** ** Enumerations *)

(** [enum DataType_t].  An unscoped enumeration whose enumerators span
    0x01..0xFF can hold any value of that range, and [addData] has a
    [default:] label for such values, so the type is the integer and
    the enumerators are constants. *)
Abbreviation DataType_t := Z (only parsing).

Definition FLAGS                              : DataType_t := 0x01.
Definition INCOMPLETE_LIST_16BIT_SERVICE_IDS  : DataType_t := 0x02.
Definition COMPLETE_LIST_16BIT_SERVICE_IDS    : DataType_t := 0x03.
Definition INCOMPLETE_LIST_32BIT_SERVICE_IDS  : DataType_t := 0x04.
Definition COMPLETE_LIST_32BIT_SERVICE_IDS    : DataType_t := 0x05.
Definition INCOMPLETE_LIST_128BIT_SERVICE_IDS : DataType_t := 0x06.
Definition COMPLETE_LIST_128BIT_SERVICE_IDS   : DataType_t := 0x07.
Definition SHORTENED_LOCAL_NAME               : DataType_t := 0x08.
Definition COMPLETE_LOCAL_NAME                : DataType_t := 0x09.
Definition TX_POWER_LEVEL                     : DataType_t := 0x0A.
Definition DEVICE_ID                          : DataType_t := 0x10.
Definition SLAVE_CONNECTION_INTERVAL_RANGE    : DataType_t := 0x12.
Definition LIST_128BIT_SOLICITATION_IDS       : DataType_t := 0x15.
Definition SERVICE_DATA                       : DataType_t := 0x16.
Definition APPEARANCE                         : DataType_t := 0x19.
Definition ADVERTISING_INTERVAL               : DataType_t := 0x1A.
Definition MANUFACTURER_SPECIFIC_DATA         : DataType_t := 0xFF.

(** The [case] labels of the first group of the [switch] in [addData]:
    "These fields will be overwritten with the new value". *)
Definition overwrite_cases : list DataType_t :=
  [ FLAGS; SHORTENED_LOCAL_NAME; COMPLETE_LOCAL_NAME; TX_POWER_LEVEL;
    DEVICE_ID; SLAVE_CONNECTION_INTERVAL_RANGE; SERVICE_DATA; APPEARANCE;
    ADVERTISING_INTERVAL; MANUFACTURER_SPECIFIC_DATA ].

(** The [case] labels of the second group: "These fields will have the
    new data appended if there is sufficient space". *)
Definition append_cases : list DataType_t :=
  [ INCOMPLETE_LIST_16BIT_SERVICE_IDS; COMPLETE_LIST_16BIT_SERVICE_IDS;
    INCOMPLETE_LIST_32BIT_SERVICE_IDS; COMPLETE_LIST_32BIT_SERVICE_IDS;
    INCOMPLETE_LIST_128BIT_SERVICE_IDS; COMPLETE_LIST_128BIT_SERVICE_IDS;
    LIST_128BIT_SOLICITATION_IDS ].

Definition is_case (labels : list DataType_t) (t : DataType_t) : bool :=
  existsb (Z.eqb t) labels.

(** [ble_error_t] is declared in [blecommon.h]; these are the
    enumerators the class returns. *)
Inductive ble_error_t : Type :=
| BLE_ERROR_NONE
| BLE_ERROR_BUFFER_OVERFLOW
| BLE_ERROR_NOT_IMPLEMENTED
| BLE_ERROR_INVALID_PARAM
| BLE_ERROR_UNSPECIFIED.

(** Modelled from the spec: [BLEProtocol::AppearanceType::GENERIC_TAG],
    the default of [addAppearance] and the initial [_appearance], is
    declared in [BLEProtocol.h], which is not among the sources; 512 is
    the value the specification states for it. *)
Definition GENERIC_TAG : Z := 512.

(** ** The object *)

Record GapAdvertisingData : Type := mkGapAdvertisingData {
  _payload    : list Z;   (* uint8_t  _payload[GAP_ADVERTISING_DATA_MAX_PAYLOAD] *)
  _payloadLen : Z;        (* uint8_t  _payloadLen *)
  _appearance : Z         (* uint16_t _appearance *)
}.

(** A caller's [const uint8_t *]. *)
Definition ptr : Type := option (list Z).

(** ** The monad of member functions *)

Inductive outcome (A : Type) : Type :=
| Done (a : A)
| OutOfBounds
| Diverges.
Arguments Done {A} a.
Arguments OutOfBounds {A}.
Arguments Diverges {A}.

Definition M (A : Type) : Type :=
  GapAdvertisingData -> outcome (A * GapAdvertisingData).

Definition ret {A} (a : A) : M A := fun st => Done (a, st).

Definition bind {A B} (m : M A) (k : A -> M B) : M B :=
  fun st =>
    match m st with
    | Done (a, st') => k a st'
    | OutOfBounds => OutOfBounds
    | Diverges => Diverges
    end.

Notation "x <- m ;; k" := (bind m (fun x => k))
  (at level 100, m at level 99, right associativity).
Notation "m ;;; k" := (bind m (fun _ => k))
  (at level 100, right associativity).

Definition diverge {A} : M A := fun _ => Diverges.

(** [_payload[i]] as an rvalue. *)
Definition load (i : Z) : M Z :=
  fun st =>
    if decide (0 <= i) then
      match _payload st !! Z.to_nat i with
      | Some b => Done (b, st)
      | None => OutOfBounds
      end
    else OutOfBounds.

(** [_payload[i] = b]. *)
Definition store (i : Z) (b : Z) : M unit :=
  fun st =>
    if decide (0 <= i /\ (Z.to_nat i < length (_payload st))%nat) then
      Done (tt, mkGapAdvertisingData (<[Z.to_nat i := b]> (_payload st))
                                     (_payloadLen st) (_appearance st))
    else OutOfBounds.

Definition get_payloadLen : M Z := fun st => Done (_payloadLen st, st).

Definition set_payloadLen (n : Z) : M unit :=
  fun st => Done (tt, mkGapAdvertisingData (_payload st) n (_appearance st)).

Definition set_appearance (a : Z) : M unit :=
  fun st => Done (tt, mkGapAdvertisingData (_payload st) (_payloadLen st) a).

(** [payload[idx]] for an argument pointer. *)
Definition read_arg (payload : ptr) (idx : Z) : M Z :=
  fun st =>
    match payload with
    | Some bytes =>
        if decide (0 <= idx) then
          match bytes !! Z.to_nat idx with
          | Some b => Done (b, st)
          | None => OutOfBounds
          end
        else OutOfBounds
    | None => OutOfBounds
    end.

(** ** Member functions *)

(** The constructor: [_payload()] value-initialises the array. *)
Definition GapAdvertisingData_new : GapAdvertisingData :=
  mkGapAdvertisingData
    (replicate (Z.to_nat GAP_ADVERTISING_DATA_MAX_PAYLOAD) 0) 0 (u16 GENERIC_TAG).

(** [for (uint8_t idx = 0; idx < count; idx++) dst[idx] = payload[idx];]
    which is also what [memcpy(dst, payload, count)] does.  [idx] is the
    running index, [count] the iterations left. *)
Fixpoint copy_bytes (count : nat) (dst : Z) (payload : ptr) (idx : Z) : M unit :=
  match count with
  | O => ret tt
  | S count' =>
      b <- read_arg payload idx ;;
      store (dst + idx) b ;;;
      copy_bytes count' dst payload (idx + 1)
  end.

Definition memcpy (dst : Z) (payload : ptr) (len : Z) : M unit :=
  copy_bytes (Z.to_nat len) dst payload 0.

(** The private [uint8_t* findField(DataType_t type)]. *)
Fixpoint findField_loop (fuel : nat) (type : DataType_t) (idx : Z) : M (option Z) :=
  match fuel with
  | O => diverge
  | S fuel' =>
      n <- get_payloadLen ;;
      if idx <? n then
        fieldType <- load (idx + 1) ;;
        if fieldType =? type then ret (Some idx)
        else
          l <- load idx ;;
          findField_loop fuel' type (u8 (idx + (l + 1)))
      else ret None
  end.

(** [idx] is a [uint8_t] and the buffer does not change during the scan,
    so a scan that has not ended after 256 iterations never ends. *)
Definition findField (type : DataType_t) : M (option Z) :=
  findField_loop 256 type 0.

(** The public [const uint8_t* findField(DataType_t type) const].  Its
    body is [return findField(type);].  [this] is a pointer to const
    there, so the only viable overload is the const one: the function
    calls itself. *)
Fixpoint findField_const (fuel : nat) (type : DataType_t) : M (option Z) :=
  match fuel with
  | O => diverge
  | S fuel' => findField_const fuel' type
  end.

Definition appendField (advDataType : DataType_t) (payload : ptr) (len : Z)
  : M ble_error_t :=
  n <- get_payloadLen ;;
  if n + len + 2 >? GAP_ADVERTISING_DATA_MAX_PAYLOAD then
    ret BLE_ERROR_BUFFER_OVERFLOW
  else
    (* Field length. *)
    store n (u8 (len + 1)) ;;;
    set_payloadLen (u8 (n + 1)) ;;;
    (* Field ID. *)
    n <- get_payloadLen ;;
    store n (u8 advDataType) ;;;
    set_payloadLen (u8 (n + 1)) ;;;
    (* Payload. *)
    n <- get_payloadLen ;;
    memcpy n payload len ;;;
    set_payloadLen (u8 (n + len)) ;;;
    ret BLE_ERROR_NONE.

(** [while ((field + dataLength + 2) < &_payload[_payloadLen])
       { *field = field[dataLength + 2]; field++; }]
    [field] moves up towards [_payloadLen], a [uint8_t], so 256
    iterations are more than the loop can make. *)
Fixpoint remove_loop (fuel : nat) (field dataLength : Z) : M unit :=
  match fuel with
  | O => diverge
  | S fuel' =>
      n <- get_payloadLen ;;
      if field + dataLength + 2 <? n then
        b <- load (field + (dataLength + 2)) ;;
        store field b ;;;
        remove_loop fuel' (field + 1) dataLength
      else ret tt
  end.

(** [while (&field[1] < end) { end[len] = *end; end--; }]
    [end] starts at [_payloadLen], a [uint8_t], and moves down to
    [field + 1], so 256 iterations are more than the loop can make. *)
Fixpoint shift_loop (fuel : nat) (field len end_ : Z) : M unit :=
  match fuel with
  | O => diverge
  | S fuel' =>
      if field + 1 <? end_ then
        b <- load end_ ;;
        store (end_ + len) b ;;;
        shift_loop fuel' field len (end_ - 1)
      else ret tt
  end.

(** [addData].  The two groups of [case] labels are tested in the order
    of the source; the last branch is the [default:] label. *)
Definition addData (advDataType : DataType_t) (payload : ptr) (len : Z)
  : M ble_error_t :=
  (* ble_error_t result = BLE_ERROR_BUFFER_OVERFLOW; *)
  let result := BLE_ERROR_BUFFER_OVERFLOW in
  field <- findField advDataType ;;
  match field with
  | Some field =>
      if is_case overwrite_cases advDataType then
        f0 <- load field ;;
        let dataLength := u8 (f0 - 1) in
        if len =? dataLength then
          copy_bytes (Z.to_nat dataLength) (field + 2) payload 0 ;;;
          ret result
        else
          n <- get_payloadLen ;;
          if n - dataLength + len <=? GAP_ADVERTISING_DATA_MAX_PAYLOAD then
            remove_loop 256 field dataLength ;;;
            n <- get_payloadLen ;;
            set_payloadLen (u8 (n - (dataLength + 2))) ;;;
            appendField advDataType payload len
          else ret result
      else if is_case append_cases advDataType then
        n <- get_payloadLen ;;
        if n + len <=? GAP_ADVERTISING_DATA_MAX_PAYLOAD then
          shift_loop 256 field len n ;;;
          copy_bytes (Z.to_nat len) (field + 2) payload 0 ;;;
          f0 <- load field ;;
          store field (u8 (f0 + len)) ;;;
          n <- get_payloadLen ;;
          set_payloadLen (u8 (n + len)) ;;;
          ret BLE_ERROR_NONE
        else ret result
      else ret BLE_ERROR_NOT_IMPLEMENTED
  | None => appendField advDataType payload len
  end.

(** The scan of [updateData]; [byteIndex] is a [uint8_t], and the scan
    is bounded as the one of [findField] is. *)
Fixpoint updateData_loop (fuel : nat) (advDataType : DataType_t)
    (payload : ptr) (len byteIndex : Z) : M ble_error_t :=
  match fuel with
  | O => diverge
  | S fuel' =>
      n <- get_payloadLen ;;
      if byteIndex <? n then
        l <- load byteIndex ;;
        let next :=
          updateData_loop fuel' advDataType payload len (u8 (byteIndex + (l + 1))) in
        if l =? len + 1 then
          t <- load (byteIndex + 1) ;;
          if t =? advDataType then
            memcpy (byteIndex + 2) payload len ;;;
            ret BLE_ERROR_NONE
          else next
        else next
      else ret BLE_ERROR_UNSPECIFIED
  end.

Definition updateData (advDataType : DataType_t) (payload : ptr) (len : Z)
  : M ble_error_t :=
  match payload with
  | None => ret BLE_ERROR_INVALID_PARAM
  | Some _ =>
      if len =? 0 then ret BLE_ERROR_INVALID_PARAM
      else updateData_loop 256 advDataType payload len 0
  end.

(** The address of [appearance] cast to a byte pointer and read for two
    bytes: the object representation of the low 16 bits, least
    significant byte first as on the little-endian cores the library
    targets. *)
Definition appearance_bytes (appearance : Z) : list Z :=
  [ u16 appearance mod 256; u16 appearance / 256 ].

Definition addAppearance (appearance : Z) : M ble_error_t :=
  set_appearance (u16 appearance) ;;;
  addData APPEARANCE (Some (appearance_bytes appearance)) 2.

(** [flags] is a [uint8_t] passed by value; its address is the
    payload. *)
Definition addFlags (flags : Z) : M ble_error_t :=
  addData FLAGS (Some [u8 flags]) 1.

(** [txPower] is an [int8_t]; its single byte is read as [uint8_t]. *)
Definition addTxPower (txPower : Z) : M ble_error_t :=
  addData TX_POWER_LEVEL (Some [u8 txPower]) 1.

(** [memset(&_payload, 0, GAP_ADVERTISING_DATA_MAX_PAYLOAD); _payloadLen = 0;] *)
Definition clear : M unit :=
  fun st =>
    Done (tt, mkGapAdvertisingData
                (replicate (Z.to_nat GAP_ADVERTISING_DATA_MAX_PAYLOAD) 0
                   ++ drop (Z.to_nat GAP_ADVERTISING_DATA_MAX_PAYLOAD) (_payload st))
                0 (_appearance st)).

Definition getPayload (st : GapAdvertisingData) : list Z := _payload st.
Definition getPayloadLen (st : GapAdvertisingData) : Z := _payloadLen st.
Definition getAppearance (st : GapAdvertisingData) : Z := u16 (_appearance st).

(** A sequence of calls on one object, as a client makes them. *)
Inductive call : Type :=
| CallAddData (advDataType : DataType_t) (payload : ptr) (len : Z)
| CallUpdateData (advDataType : DataType_t) (payload : ptr) (len : Z)
| CallAddAppearance (appearance : Z)
| CallAddFlags (flags : Z)
| CallAddTxPower (txPower : Z)
| CallClear.

Definition perform (c : call) : M unit :=
  match c with
  | CallAddData t p l => addData t p l ;;; ret tt
  | CallUpdateData t p l => updateData t p l ;;; ret tt
  | CallAddAppearance a => addAppearance a ;;; ret tt
  | CallAddFlags f => addFlags f ;;; ret tt
  | CallAddTxPower x => addTxPower x ;;; ret tt
  | CallClear => clear
  end.

Fixpoint perform_all (cs : list call) : M unit :=
  match cs with
  | [] => ret tt
  | c :: cs' => perform c ;;; perform_all cs'
  end.

(** Arguments a client may pass: a type that fits the type byte, and a
    pointer to at least [len] readable bytes.  [addData] takes values of
    up to 29 bytes; [updateData] rejects a null pointer and a zero
    length itself. *)
Definition valid_call (c : call) : Prop :=
  match c with
  | CallAddData t p l =>
      0 <= t < 256 /\ l <= 29 /\
      exists bytes, p = Some bytes /\ 0 <= l <= Z.of_nat (length bytes)
  | CallUpdateData t p l =>
      (p = None \/ l = 0) \/
      exists bytes, p = Some bytes /\ 0 < l <= Z.of_nat (length bytes)
  | _ => True
  end.

(** The argument of the last [addAppearance] among [cs], or [current]
    when there is none. *)
Fixpoint last_appearance (cs : list call) (current : Z) : Z :=
  match cs with
  | [] => current
  | CallAddAppearance a :: cs' => last_appearance cs' a
  | _ :: cs' => last_appearance cs' current
  end.

(** ** Records: what the occupied prefix of the buffer means *)

(** A record is its type byte and its value bytes. *)
Abbreviation record := (Z * list Z)%type (only parsing).

Definition encode_record (r : record) : list Z :=
  (Z.of_nat (length r.2) + 1) :: r.1 :: r.2.

Fixpoint encode (recs : list record) : list Z :=
  match recs with
  | [] => []
  | r :: recs' => encode_record r ++ encode recs'
  end.

(** The scan every reader of the buffer performs: a length byte, a type
    byte, then length-1 value bytes, until the bytes are used up. *)
Fixpoint decode (fuel : nat) (bytes : list Z) : option (list record) :=
  match fuel with
  | O => None
  | S fuel' =>
      match bytes with
      | [] => Some []
      | _ :: [] => None
      | l :: ty :: more =>
          if decide (1 <= l /\ (Z.to_nat (l - 1) <= length more)%nat) then
            match decode fuel' (drop (Z.to_nat (l - 1)) more) with
            | Some recs => Some ((ty, take (Z.to_nat (l - 1)) more) :: recs)
            | None => None
            end
          else None
      end
  end.

(** The records of a store, when its occupied prefix is a sequence of
    whole records with no length byte 0, and fits the array. *)
Definition records (st : GapAdvertisingData) : option (list record) :=
  if decide (length (_payload st) = Z.to_nat GAP_ADVERTISING_DATA_MAX_PAYLOAD
             /\ 0 <= _payloadLen st <= GAP_ADVERTISING_DATA_MAX_PAYLOAD) then
    decode (S (Z.to_nat (_payloadLen st)))
           (take (Z.to_nat (_payloadLen st)) (_payload st))
  else None.

(** [holds st recs]: the store is a 31-byte array whose first
    [_payloadLen] bytes are exactly the records [recs], back to back. *)
Definition holds (st : GapAdvertisingData) (recs : list record) : Prop :=
  length (_payload st) = Z.to_nat GAP_ADVERTISING_DATA_MAX_PAYLOAD /\
  0 <= _payloadLen st <= GAP_ADVERTISING_DATA_MAX_PAYLOAD /\
  take (Z.to_nat (_payloadLen st)) (_payload st) = encode recs.

(** Offset of the first record of type [ty], scanning from [off]. *)
Fixpoint find_from (ty : DataType_t) (recs : list record) (off : Z) : option Z :=
  match recs with
  | [] => None
  | r :: recs' =>
      if r.1 =? ty then Some off
      else find_from ty recs' (off + Z.of_nat (length (encode_record r)))
  end.

(** The number of bytes [recs] take in the buffer. *)
Definition occupied (recs : list record) : Z := Z.of_nat (length (encode recs)).

(** What [updateData] does, on records: the first record of type [ty]
    whose value is as long as [w] gets [w] as its value. *)
Fixpoint update_records (ty : DataType_t) (w : list Z) (recs : list record)
  : option (list record) :=
  match recs with
  | [] => None
  | r :: recs' =>
      if (Z.of_nat (length r.2) =? Z.of_nat (length w)) && (r.1 =? ty)
      then Some ((ty, w) :: recs')
      else match update_records ty w recs' with
           | Some recs'' => Some (r :: recs'')
           | None => None
           end
  end.

(** The shape of a store in which [ty] is first found after [pre]. *)
Definition found_store (pre post : list record) ty v (tl : list Z) a
  : GapAdvertisingData :=
  mkGapAdvertisingData
    (encode pre ++ (Z.of_nat (length v) + 1) :: ty :: v ++ encode post ++ tl)
    (occupied pre + (Z.of_nat (length v) + 2) + occupied post) a.

(** ** [addData] seen on records *)

(** The first record of type [ty]: the records before it, its value and
    the records after it. *)
Fixpoint split_first (ty : DataType_t) (recs : list record)
  : option (list record * list Z * list record) :=
  match recs with
  | [] => None
  | r :: recs' =>
      if r.1 =? ty then Some ([], r.2, recs')
      else match split_first ty recs' with
           | Some (pre, v, post) => Some (r :: pre, v, post)
           | None => None
           end
  end.

(** What a call does to the records: it returns [r] and leaves the store
    as it was, or returns [r] with new records, or accesses [_payload]
    outside its 31 bytes. *)
Inductive verdict : Type :=
| Unchanged (r : ble_error_t)
| Changed (r : ble_error_t) (recs' : list record)
| Outside.

(** The branches of [addData], with the value [w] for the bytes the
    caller passes. *)
Definition addData_records (ty : DataType_t) (w : list Z) (recs : list record)
  : verdict :=
  let n := occupied recs in
  let len := Z.of_nat (length w) in
  match split_first ty recs with
  | None =>
      if n + len + 2 >? 31 then Unchanged BLE_ERROR_BUFFER_OVERFLOW
      else Changed BLE_ERROR_NONE (recs ++ [(ty, w)])
  | Some (pre, v, post) =>
      if is_case overwrite_cases ty then
        if len =? Z.of_nat (length v) then
          Changed BLE_ERROR_BUFFER_OVERFLOW (pre ++ (ty, w) :: post)
        else if n - Z.of_nat (length v) + len <=? 31 then
          Changed BLE_ERROR_NONE (pre ++ post ++ [(ty, w)])
        else Unchanged BLE_ERROR_BUFFER_OVERFLOW
      else if is_case append_cases ty then
        if n + len <=? 31 then
          if n + len =? 31 then Outside
          else Changed BLE_ERROR_NONE (pre ++ (ty, w ++ v) :: post)
        else Unchanged BLE_ERROR_BUFFER_OVERFLOW
      else Unchanged BLE_ERROR_NOT_IMPLEMENTED
  end.


(** The enumerators of [DataType_t]. *)
Definition DataType_enumerators : list DataType_t :=
  [ FLAGS; INCOMPLETE_LIST_16BIT_SERVICE_IDS; COMPLETE_LIST_16BIT_SERVICE_IDS;
    INCOMPLETE_LIST_32BIT_SERVICE_IDS; COMPLETE_LIST_32BIT_SERVICE_IDS;
    INCOMPLETE_LIST_128BIT_SERVICE_IDS; COMPLETE_LIST_128BIT_SERVICE_IDS;
    SHORTENED_LOCAL_NAME; COMPLETE_LOCAL_NAME; TX_POWER_LEVEL; DEVICE_ID;
    SLAVE_CONNECTION_INTERVAL_RANGE; LIST_128BIT_SOLICITATION_IDS;
    SERVICE_DATA; APPEARANCE; ADVERTISING_INTERVAL;
    MANUFACTURER_SPECIFIC_DATA ].

(** ** Stores used as examples *)

(** After [addData(COMPLETE_LIST_16BIT_SERVICE_IDS, {1,2}, 2)] and
    [addFlags(6)] on a new object. *)
Definition ids_then_flags : GapAdvertisingData :=
  mkGapAdvertisingData ([3; 3; 1; 2; 2; 1; 6] ++ replicate 24 0) 7 512.

(** After [addData(COMPLETE_LIST_16BIT_SERVICE_IDS, {1,2}, 2)]. *)
Definition ids_only : GapAdvertisingData :=
  mkGapAdvertisingData ([3; 3; 1; 2] ++ replicate 27 0) 4 512.

(** After [addData(SERVICE_DATA, {1,2,3}, 3)], [addFlags(6)] and
    [addTxPower(7)]. *)
Definition data_flags_power : GapAdvertisingData :=
  mkGapAdvertisingData
    ([4; 22; 1; 2; 3; 2; 1; 6; 2; 10; 7] ++ replicate 20 0) 11 512.

(** After [addData(MANUFACTURER_SPECIFIC_DATA, ..., 27)] with 27 bytes
    of value 1: 29 of the 31 bytes are taken. *)
Definition nearly_full : GapAdvertisingData :=
  mkGapAdvertisingData ([28; 255] ++ replicate 27 1 ++ [0; 0]) 29 512.

(** * DiscoveredCharacteristic: requests to the GATT client

    A shallow embedding of [source/DiscoveredCharacteristic.cpp].  The
    functions check the characteristic's properties and its client
    pointer and hand the request to the [GattClient], or register a
    one-shot callback.  The headers that declare their collaborators are
    not among the sources, so the collaborators are parameters: the
    values of the [ble_error_t] enumerators the functions name, and the
    client as a state machine [S] whose answers are not constrained.
    Every call into a collaborator is recorded in a log, newest first. *)

Module GattClient.

Inductive WriteOp_t : Type := GATT_OP_WRITE_REQ | GATT_OP_WRITE_CMD.

(** The virtual member functions of [GattClient] that
    [DiscoveredCharacteristic] calls.  Each returns a [ble_error_t], as
    its integer value, and moves the client to a new state. *)
Class t (S : Type) : Type := {
  read : Z -> Z -> Z -> S -> Z * S;
  write : WriteOp_t -> Z -> Z -> Z -> ptr -> S -> Z * S;
  discoverCharacteristicDescriptors : Z -> Z -> S -> Z * S
}.

End GattClient.

Module Characteristic.

(** The values of the enumerators of [ble_error_t] named in
    [DiscoveredCharacteristic.cpp]. *)
Class blecommon : Type := {
  BLE_ERROR_NONE : Z;
  BLE_ERROR_INVALID_STATE : Z;
  BLE_ERROR_OPERATION_NOT_PERMITTED : Z
}.

(** What [props.read()], [props.write()], [props.writeWoResp()],
    [props.notify()] and [props.indicate()] return. *)
Record Properties_t : Type := mkProperties {
  props_read : bool;
  props_write : bool;
  props_writeWoResp : bool;
  props_notify : bool;
  props_indicate : bool
}.

(** The members the functions use; [gattc] is whether the pointer is
    non-null. *)
Record DiscoveredCharacteristic : Type := mkDiscoveredCharacteristic {
  gattc : bool;
  props : Properties_t;
  connHandle : Z;
  valueHandle : Z
}.

(** Calls into collaborators.  A request carries the answer the client
    gave; callbacks are opaque and stand as numbers. *)
Inductive event : Type :=
| Read (conn value offset answer : Z)
| Write (cmd : GattClient.WriteOp_t) (conn value length : Z) (data : ptr) (answer : Z)
| DiscoverDescriptors (conn value answer : Z)
| OneShotReadCallback_launch (conn value onRead : Z)
| OneShotWriteCallback_launch (conn value onWrite : Z)
| CCCDSetter_launch (client : bool) (conn value writeCallback cccd : Z).

Section Functions.

Context `{codes : blecommon} {S : Type} `{client : GattClient.t S}.

Definition world : Type := (S * list event)%type.

(** [read(uint16_t offset)] *)
Definition read (c : DiscoveredCharacteristic) (offset : Z) (w : world)
  : Z * world :=
  if negb (props_read (props c)) then (BLE_ERROR_OPERATION_NOT_PERMITTED, w)
  else if negb (gattc c) then (BLE_ERROR_INVALID_STATE, w)
  else
    let '(answer, s') :=
      GattClient.read (connHandle c) (valueHandle c) offset (fst w) in
    (answer, (s', Read (connHandle c) (valueHandle c) offset answer :: snd w)).

(** [read(uint16_t offset, const GattClient::ReadCallback_t& onRead)];
    [if (error)] is a test for a value other than 0. *)
Definition read_callback (c : DiscoveredCharacteristic) (offset onRead : Z)
    (w : world) : Z * world :=
  let '(error, w') := read c offset w in
  if negb (error =? 0) then (error, w')
  else
    (error,
     (fst w',
      OneShotReadCallback_launch (connHandle c) (valueHandle c) onRead :: snd w')).

(** [write(uint16_t length, const uint8_t *value)] *)
Definition write (c : DiscoveredCharacteristic) (length : Z) (value : ptr)
    (w : world) : Z * world :=
  if negb (props_write (props c)) then (BLE_ERROR_OPERATION_NOT_PERMITTED, w)
  else if negb (gattc c) then (BLE_ERROR_INVALID_STATE, w)
  else
    let '(answer, s') :=
      GattClient.write GattClient.GATT_OP_WRITE_REQ (connHandle c) (valueHandle c)
        length value (fst w) in
    (answer,
     (s', Write GattClient.GATT_OP_WRITE_REQ (connHandle c) (valueHandle c)
            length value answer :: snd w)).

(** [writeWoResponse(uint16_t length, const uint8_t *value)] *)
Definition writeWoResponse (c : DiscoveredCharacteristic) (length : Z)
    (value : ptr) (w : world) : Z * world :=
  if negb (props_writeWoResp (props c)) then (BLE_ERROR_OPERATION_NOT_PERMITTED, w)
  else if negb (gattc c) then (BLE_ERROR_INVALID_STATE, w)
  else
    let '(answer, s') :=
      GattClient.write GattClient.GATT_OP_WRITE_CMD (connHandle c) (valueHandle c)
        length value (fst w) in
    (answer,
     (s', Write GattClient.GATT_OP_WRITE_CMD (connHandle c) (valueHandle c)
            length value answer :: snd w)).

(** [write(uint16_t length, const uint8_t *value,
          const GattClient::WriteCallback_t& onRead)] *)
Definition write_callback (c : DiscoveredCharacteristic) (length : Z)
    (value : ptr) (onRead : Z) (w : world) : Z * world :=
  let '(error, w') := write c length value w in
  if negb (error =? 0) then (error, w')
  else
    (error,
     (fst w',
      OneShotWriteCallback_launch (connHandle c) (valueHandle c) onRead :: snd w')).

(** [discoverDescriptors]; the two callbacks are passed on and play no
    part here. *)
Definition discoverDescriptors (c : DiscoveredCharacteristic) (w : world)
  : Z * world :=
  if negb (gattc c) then (BLE_ERROR_INVALID_STATE, w)
  else
    let '(err, s') :=
      GattClient.discoverCharacteristicDescriptors
        (connHandle c) (valueHandle c) (fst w) in
    (err, (s', DiscoverDescriptors (connHandle c) (valueHandle c) err :: snd w)).

(** [setCCCD]; the last argument of [CCCDSetter::launch] is
    [notificationValue | (indicationValue << 1)]. *)
Definition setCCCD (c : DiscoveredCharacteristic)
    (indicationValue notificationValue : bool) (writeCallback : Z) (w : world)
  : Z * world :=
  if negb (props_notify (props c)) && notificationValue then
    (BLE_ERROR_OPERATION_NOT_PERMITTED, w)
  else if negb (props_indicate (props c)) && indicationValue then
    (BLE_ERROR_OPERATION_NOT_PERMITTED, w)
  else
    (BLE_ERROR_NONE,
     (fst w,
      CCCDSetter_launch (gattc c) (connHandle c) (valueHandle c) writeCallback
        (Z.lor (Z.b2z notificationValue) (Z.shiftl (Z.b2z indicationValue) 1))
        :: snd w)).

(** The calls a client of the class can make, and a sequence of them on
    one characteristic. *)
Inductive request : Type :=
| DoRead (offset : Z)
| DoReadCallback (offset onRead : Z)
| DoWrite (length : Z) (value : ptr)
| DoWriteWoResponse (length : Z) (value : ptr)
| DoWriteCallback (length : Z) (value : ptr) (onRead : Z)
| DoDiscoverDescriptors
| DoSetCCCD (indicationValue notificationValue : bool) (writeCallback : Z).

Definition serve (c : DiscoveredCharacteristic) (r : request) (w : world)
  : Z * world :=
  match r with
  | DoRead offset => read c offset w
  | DoReadCallback offset onRead => read_callback c offset onRead w
  | DoWrite length value => write c length value w
  | DoWriteWoResponse length value => writeWoResponse c length value w
  | DoWriteCallback length value onRead => write_callback c length value onRead w
  | DoDiscoverDescriptors => discoverDescriptors c w
  | DoSetCCCD i n cb => setCCCD c i n cb w
  end.

Fixpoint serve_all (c : DiscoveredCharacteristic) (rs : list request) (w : world)
  : world :=
  match rs with
  | [] => w
  | r :: rs' => serve_all c rs' (snd (serve c r w))
  end.

End Functions.

(** What every log of calls on the characteristic [c] looks like, read
    from the newest entry back: a request is one the property bits
    allow, made through a client pointer that is not null and with the
    handles of [c]; a one-shot callback follows at once the request it
    belongs to, which the client answered with 0; a CCCD value has bit 0
    only with the notify property and bit 1 only with the indicate
    property. *)
Fixpoint orderly (c : DiscoveredCharacteristic) (log : list event) : bool :=
  match log with
  | [] => true
  | Read conn value _ _ :: rest =>
      props_read (props c) && gattc c
      && (conn =? connHandle c) && (value =? valueHandle c) && orderly c rest
  | Write GattClient.GATT_OP_WRITE_REQ conn value _ _ _ :: rest =>
      props_write (props c) && gattc c
      && (conn =? connHandle c) && (value =? valueHandle c) && orderly c rest
  | Write GattClient.GATT_OP_WRITE_CMD conn value _ _ _ :: rest =>
      props_writeWoResp (props c) && gattc c
      && (conn =? connHandle c) && (value =? valueHandle c) && orderly c rest
  | DiscoverDescriptors conn value _ :: rest =>
      gattc c && (conn =? connHandle c) && (value =? valueHandle c)
      && orderly c rest
  | OneShotReadCallback_launch conn value _ :: rest =>
      match rest with
      | Read conn' value' _ answer :: _ =>
          (conn =? conn') && (value =? value') && (answer =? 0) && orderly c rest
      | _ => false
      end
  | OneShotWriteCallback_launch conn value _ :: rest =>
      match rest with
      | Write GattClient.GATT_OP_WRITE_REQ conn' value' _ _ answer :: _ =>
          (conn =? conn') && (value =? value') && (answer =? 0) && orderly c rest
      | _ => false
      end
  | CCCDSetter_launch g conn value _ cccd :: rest =>
      Bool.eqb g (gattc c) && (conn =? connHandle c) && (value =? valueHandle c)
      && (0 <=? cccd) && (cccd <=? 3)
      && implb (Z.testbit cccd 0) (props_notify (props c))
      && implb (Z.testbit cccd 1) (props_indicate (props c))
      && orderly c rest
  end.

End Characteristic.

(** * DFUService: the hand-over to the bootloader

    A shallow embedding of [services/DFUService.h].  [serviceAdded] is
    the function-local static of the constructor, [handoverCallback] the
    static member; both outlive every object.  [BLEDevice],
    [GattCharacteristic] and [bootloader_start] are declared elsewhere:
    calls to them are recorded in a log, newest first, and the handle of
    an object's control point is a member of the object. *)

Module DFUService.

Inductive event : Type :=
| addService (this : Z)
| onDataWritten_registered (this : Z)
| handoverCallback_called (callback : Z)
| bootloader_start.

Record statics : Type := mkStatics {
  serviceAdded : bool;
  handoverCallback : option Z;   (* NULL is None *)
  log : list event
}.

(** An object: its address and
    [controlPoint.getValueAttribute().getHandle()]. *)
Record DFUService : Type := mkDFUService {
  this : Z;
  controlHandle : Z
}.

(** The constructor, for the object [d] and the argument
    [_handoverCallback]. *)
Definition DFUService_new (d : DFUService) (_handoverCallback : option Z)
    (w : statics) : statics :=
  if serviceAdded w then w
  else
    mkStatics true _handoverCallback
      (onDataWritten_registered (this d) :: addService (this d) :: log w).

Definition getControlHandle (d : DFUService) : Z := controlHandle d.

(** [onDataWritten(params)], for [params->charHandle]. *)
Definition onDataWritten (d : DFUService) (charHandle : Z) (w : statics)
  : statics :=
  if charHandle =? controlHandle d then
    let w' :=
      match handoverCallback w with
      | Some callback =>
          mkStatics (serviceAdded w) (handoverCallback w)
            (handoverCallback_called callback :: log w)
      | None => w
      end in
    mkStatics (serviceAdded w') (handoverCallback w') (bootloader_start :: log w')
  else w.

(** Objects constructed one after the other, each with its callback. *)
Fixpoint construct_all (ds : list (DFUService * option Z)) (w : statics)
  : statics :=
  match ds with
  | [] => w
  | (d, callback) :: ds' => construct_all ds' (DFUService_new d callback w)
  end.

(** The program before any object exists; the static member has some
    value [callback0]. *)
Definition at_start (callback0 : option Z) : statics :=
  mkStatics false callback0 [].

End DFUService.

(** ** A client and a characteristic used as examples *)

(** Values for the three enumerators, [BLE_ERROR_NONE] being 0. *)
Definition example_codes : Characteristic.blecommon :=
  Characteristic.Build_blecommon 0 6 8.

(** A client that counts the requests it has seen, accepts every read
    and every descriptor discovery and answers every write with 5. *)
Definition counting_client : GattClient.t nat :=
  GattClient.Build_t nat
    (fun _ _ _ s => (0, Datatypes.S s))
    (fun _ _ _ _ _ s => (5, Datatypes.S s))
    (fun _ _ s => (0, Datatypes.S s)).

(** A characteristic that can be read and written and can notify. *)
Definition readable_characteristic : Characteristic.DiscoveredCharacteristic :=
  Characteristic.mkDiscoveredCharacteristic true
    (Characteristic.mkProperties true true false true false) 1 42.

(** A characteristic without any property and without a client. *)
Definition detached_characteristic : Characteristic.DiscoveredCharacteristic :=
  Characteristic.mkDiscoveredCharacteristic false
    (Characteristic.mkProperties false false false false false) 1 42.

(** ** Proof automation *)

(** Bring both sides of an equation between concatenations to the same
    right-nested shape. *)
Ltac list_norm :=
  repeat first [ rewrite <- app_assoc | rewrite app_nil_r | progress cbn [app] ].

Ltac same_list := list_norm; reflexivity.

(** Run the leading [get_payloadLen] or [set_payloadLen] of a computation. *)
Ltac step_get :=
  unfold bind at 1; unfold get_payloadLen at 1; cbn [_payloadLen].
Ltac step_set :=
  unfold bind at 1; unfold set_payloadLen at 1;
  cbn [_payload _payloadLen _appearance].

(** * Proofs *)

(** ** The monad and the primitive accesses *)

Lemma bind_Done {A B} (m : M A) (k : A -> M B) st a st' :
  m st = Done (a, st') -> bind m k st = k a st'.
Proof. unfold bind. intros ->. reflexivity. Qed.

Lemma load_at (front : list Z) b back st i :
  _payload st = front ++ b :: back ->
  i = Z.of_nat (length front) ->
  load i st = Done (b, st).
Proof.
  intros Hp ->. unfold load.
  destruct (decide (0 <= Z.of_nat (length front))) as [_|]; [|lia].
  rewrite Hp, Nat2Z.id, list_lookup_middle by reflexivity. reflexivity.
Qed.

Lemma store_at (front : list Z) b back st i x :
  _payload st = front ++ b :: back ->
  i = Z.of_nat (length front) ->
  store i x st
  = Done (tt, mkGapAdvertisingData (front ++ x :: back)
                                   (_payloadLen st) (_appearance st)).
Proof.
  intros Hp ->. unfold store. rewrite Hp, Nat2Z.id.
  destruct (decide _) as [_|Hn].
  - rewrite insert_app_r_alt by lia.
    replace (length front - length front)%nat with 0%nat by lia. reflexivity.
  - exfalso. apply Hn. rewrite length_app. simpl. lia.
Qed.

Lemma encode_app (xs ys : list record) : encode (xs ++ ys) = encode xs ++ encode ys.
Proof.
  induction xs as [|r xs IH]; simpl; [reflexivity|].
  rewrite IH. rewrite <- !app_assoc. reflexivity.
Qed.

Lemma occupied_app xs ys : occupied (xs ++ ys) = occupied xs + occupied ys.
Proof. unfold occupied. rewrite encode_app, length_app. lia. Qed.

Lemma occupied_cons r xs : occupied (r :: xs) = Z.of_nat (length r.2) + 2 + occupied xs.
Proof. unfold occupied. simpl. rewrite length_app. lia. Qed.

Lemma occupied_nonneg xs : 0 <= occupied xs.
Proof. unfold occupied. lia. Qed.

(** ** The scan *)

Lemma findField_loop_spec ty a tail (post pre : list record) fuel :
  (length post < fuel)%nat ->
  occupied (pre ++ post) <= 255 ->
  let st := mkGapAdvertisingData (encode pre ++ encode post ++ tail)
                                 (occupied (pre ++ post)) a in
  findField_loop fuel ty (occupied pre) st = Done (find_from ty post (occupied pre), st).
Proof.
  revert pre fuel. induction post as [|[t v] post IH]; intros pre fuel Hfuel Hsz st.
  - destruct fuel as [|fuel]; [simpl in Hfuel; lia|].
    simpl. unfold bind, get_payloadLen. subst st. simpl.
    rewrite app_nil_r, Z.ltb_irrefl. reflexivity.
  - destruct fuel as [|fuel]; [simpl in Hfuel; lia|].
    pose proof (occupied_nonneg post) as Hpost. pose proof (occupied_nonneg pre) as Hpre.
    assert (Hlt : occupied pre < occupied (pre ++ (t, v) :: post)).
    { rewrite occupied_app, occupied_cons. simpl. lia. }
    cbn [findField_loop]. unfold bind at 1. unfold get_payloadLen.
    cbn [_payloadLen st]. rewrite (proj2 (Z.ltb_lt _ _) Hlt).
    erewrite bind_Done; cycle 1.
    { apply (load_at (encode pre ++ [Z.of_nat (length v) + 1]) t
                     (v ++ encode post ++ tail)).
      - subst st. cbn [_payload encode encode_record fst snd]. same_list.
      - rewrite length_app. unfold occupied. simpl. lia. }
    cbn [find_from fst]. destruct (t =? ty) eqn:Et; [reflexivity|].
    erewrite bind_Done; cycle 1.
    { apply (load_at (encode pre) (Z.of_nat (length v) + 1)
                     (t :: v ++ encode post ++ tail)).
      - subst st. cbn [_payload encode encode_record fst snd]. same_list.
      - reflexivity. }
    assert (Heq : occupied (pre ++ [(t, v)]) = occupied pre + Z.of_nat (length v) + 2).
    { rewrite occupied_app, occupied_cons. unfold occupied at 2. simpl. lia. }
    assert (Hsz' : occupied (pre ++ (t, v) :: post)
                   = occupied pre + Z.of_nat (length v) + 2 + occupied post).
    { rewrite occupied_app, occupied_cons. simpl. lia. }
    replace (u8 (occupied pre + (Z.of_nat (length v) + 1 + 1)))
      with (occupied (pre ++ [(t, v)])).
    2:{ unfold u8. rewrite Z.mod_small; lia. }
    replace (occupied pre + Z.of_nat (length (encode_record (t, v))))
      with (occupied (pre ++ [(t, v)])).
    2:{ rewrite Heq. simpl. lia. }
    specialize (IH (pre ++ [(t, v)]) fuel).
    rewrite <- (app_assoc pre [(t, v)] post) in IH. cbn [app] in IH.
    subst st. cbn [encode].
    replace (encode pre ++ (encode_record (t, v) ++ encode post) ++ tail)
      with (encode (pre ++ [(t, v)]) ++ encode post ++ tail).
    2:{ rewrite encode_app. cbn [encode]. same_list. }
    apply IH; [simpl in Hfuel; lia | exact Hsz].
Qed.

Lemma holds_split st recs :
  holds st recs ->
  _payload st = encode recs ++ drop (Z.to_nat (_payloadLen st)) (_payload st) /\
  _payloadLen st = occupied recs /\
  occupied recs <= 31 /\
  Z.of_nat (length (drop (Z.to_nat (_payloadLen st)) (_payload st))) = 31 - occupied recs.
Proof.
  intros (Hlen & Hn & Htake). unfold GAP_ADVERTISING_DATA_MAX_PAYLOAD in *.
  assert (Hsz : _payloadLen st = occupied recs).
  { unfold occupied. rewrite <- Htake, length_take. lia. }
  repeat split.
  - rewrite <- Htake. symmetry. apply take_drop.
  - exact Hsz.
  - lia.
  - rewrite length_drop. lia.
Qed.

Lemma holds_intro p n a recs tail :
  p = encode recs ++ tail ->
  n = occupied recs ->
  Z.of_nat (length p) = 31 ->
  holds (mkGapAdvertisingData p n a) recs.
Proof.
  intros -> -> Hlen. unfold holds, GAP_ADVERTISING_DATA_MAX_PAYLOAD. simpl.
  pose proof (occupied_nonneg recs) as Hs. unfold occupied in *.
  rewrite length_app in Hlen.
  repeat split; try lia.
  - rewrite length_app. lia.
  - rewrite Nat2Z.id. apply take_app_length.
Qed.

Lemma findField_spec st recs ty :
  holds st recs -> findField ty st = Done (find_from ty recs 0, st).
Proof.
  intros H. destruct (holds_split st recs H) as (Hp & Hn & Hsz & _).
  destruct st as [p n a]. simpl in *.
  pose proof (findField_loop_spec ty a (drop (Z.to_nat n) p) recs [] 256) as L.
  cbv zeta in L. cbn [encode app] in L. unfold findField.
  change (occupied []) with 0 in L.
  rewrite <- Hp, <- Hn in L. apply L.
  - assert (2 * Z.of_nat (length recs) <= occupied recs); [|lia].
    clear. induction recs as [|r recs IH]; [unfold occupied; simpl; lia|].
    rewrite occupied_cons. simpl length. lia.
  - lia.
Qed.

Lemma find_from_first ty v (pre post : list record) off :
  Forall (fun r => r.1 <> ty) pre ->
  find_from ty (pre ++ (ty, v) :: post) off = Some (off + occupied pre).
Proof.
  revert off. induction pre as [|r pre IH]; intros off Hpre.
  - simpl. rewrite Z.eqb_refl. unfold occupied. simpl. f_equal. lia.
  - inversion Hpre as [|? ? Hr Hpre']; subst. cbn [app find_from].
    rewrite (proj2 (Z.eqb_neq _ _) Hr), IH by assumption.
    rewrite occupied_cons. f_equal. simpl. lia.
Qed.

Lemma find_from_none ty (recs : list record) off :
  Forall (fun r => r.1 <> ty) recs -> find_from ty recs off = None.
Proof.
  revert off. induction recs as [|r recs IH]; intros off H; [reflexivity|].
  inversion H as [|? ? Hr H']; subst. cbn [find_from].
  rewrite (proj2 (Z.eqb_neq _ _) Hr). apply IH. assumption.
Qed.

(** Every list of records either has no record of a type or splits at
    the first one. *)
Lemma first_of_type ty (recs : list record) :
  Forall (fun r => r.1 <> ty) recs \/
  exists pre v post,
    recs = pre ++ (ty, v) :: post /\ Forall (fun r => r.1 <> ty) pre.
Proof.
  induction recs as [|[t v] recs IH]; [left; constructor|].
  destruct (decide (t = ty)) as [->|Hne].
  - right. exists [], v, recs. split; [reflexivity|constructor].
  - destruct IH as [IH|(pre & v' & post & -> & Hpre)].
    + left. constructor; assumption.
    + right. exists ((t, v) :: pre), v', post. split; [reflexivity|].
      constructor; assumption.
Qed.

(** ** Copying the caller's bytes *)

Lemma copy_bytes_spec (w2 : list Z) :
  forall (mid front back w1 w3 : list Z) n a dst idx,
    length mid = length w2 ->
    dst + idx = Z.of_nat (length front) ->
    idx = Z.of_nat (length w1) ->
    copy_bytes (length w2) dst (Some (w1 ++ w2 ++ w3)) idx
      (mkGapAdvertisingData (front ++ mid ++ back) n a)
    = Done (tt, mkGapAdvertisingData (front ++ w2 ++ back) n a).
Proof.
  induction w2 as [|x w2 IH]; intros mid front back w1 w3 n a dst idx Hlen Hdst Hidx.
  - destruct mid; [reflexivity|discriminate].
  - destruct mid as [|m mid]; [discriminate|]. simpl in Hlen.
    cbn [length copy_bytes].
    erewrite bind_Done; cycle 1.
    { unfold read_arg. destruct (decide (0 <= idx)) as [_|]; [|lia].
      rewrite Hidx, Nat2Z.id. cbn [app].
      rewrite list_lookup_middle by reflexivity. reflexivity. }
    erewrite bind_Done; cycle 1.
    { apply (store_at front m (mid ++ back)); [reflexivity|exact Hdst]. }
    cbn [_payloadLen _appearance].
    specialize (IH mid (front ++ [x]) back (w1 ++ [x]) w3 n a dst (idx + 1)).
    replace ((front ++ [x]) ++ mid ++ back) with (front ++ x :: mid ++ back) in IH
      by same_list.
    replace ((front ++ [x]) ++ w2 ++ back) with (front ++ (x :: w2) ++ back) in IH
      by same_list.
    replace ((w1 ++ [x]) ++ w2 ++ w3) with (w1 ++ (x :: w2) ++ w3) in IH
      by same_list.
    apply IH; rewrite ?length_app; simpl; lia.
Qed.

(** ** [appendField] *)

Lemma appendField_overflow ty payload len st :
  _payloadLen st + len + 2 > GAP_ADVERTISING_DATA_MAX_PAYLOAD ->
  appendField ty payload len st = Done (BLE_ERROR_BUFFER_OVERFLOW, st).
Proof.
  intros H. unfold appendField, bind, get_payloadLen.
  rewrite Z.gtb_ltb, (proj2 (Z.ltb_lt _ _)) by lia. reflexivity.
Qed.

Lemma appendField_fits ty (w extra front junk back : list Z) n a len :
  n = Z.of_nat (length front) ->
  len = Z.of_nat (length w) ->
  length junk = (length w + 2)%nat ->
  n + len + 2 <= GAP_ADVERTISING_DATA_MAX_PAYLOAD ->
  0 <= ty < 256 ->
  appendField ty (Some (w ++ extra)) len
    (mkGapAdvertisingData (front ++ junk ++ back) n a)
  = Done (BLE_ERROR_NONE,
          mkGapAdvertisingData (front ++ encode_record (ty, w) ++ back)
                               (n + len + 2) a).
Proof.
  intros Hn Hlen Hjunk Hfit Hty. unfold GAP_ADVERTISING_DATA_MAX_PAYLOAD in *.
  destruct junk as [|j0 [|j1 junk]]; [simpl in Hjunk; lia..|].
  simpl in Hjunk.
  unfold appendField, GAP_ADVERTISING_DATA_MAX_PAYLOAD.
  unfold bind at 1. unfold get_payloadLen at 1. cbn [_payloadLen].
  rewrite Z.gtb_ltb, (proj2 (Z.ltb_ge _ _)) by lia.
  assert (Hu : forall x, 0 <= x < 256 -> u8 x = x)
    by (intros; unfold u8; apply Z.mod_small; lia).
  erewrite bind_Done; cycle 1.
  { apply (store_at front j0 (j1 :: junk ++ back)); [reflexivity|exact Hn]. }
  cbn [_payloadLen _appearance].
  unfold bind at 1. unfold set_payloadLen at 1. cbn [_payload _payloadLen _appearance].
  unfold bind at 1. unfold get_payloadLen at 1. cbn [_payloadLen].
  erewrite bind_Done; cycle 1.
  { apply (store_at (front ++ [u8 (len + 1)]) j1 (junk ++ back)).
    - cbn [_payload]. same_list.
    - rewrite length_app, Hu by lia. simpl. lia. }
  cbn [_payloadLen _appearance].
  unfold bind at 1. unfold set_payloadLen at 1. cbn [_payload _payloadLen _appearance].
  unfold bind at 1. unfold get_payloadLen at 1. cbn [_payloadLen].
  unfold memcpy.
  erewrite bind_Done; cycle 1.
  { rewrite Hlen, Nat2Z.id.
    pose proof (copy_bytes_spec w junk (front ++ [u8 (Z.of_nat (length w) + 1); u8 ty])
                  back [] extra) as C.
    cbn [app] in C.
    replace ((front ++ [u8 (Z.of_nat (length w) + 1)]) ++ u8 ty :: junk ++ back)
      with ((front ++ [u8 (Z.of_nat (length w) + 1); u8 ty]) ++ junk ++ back)
      by same_list.
    apply C; [lia| |reflexivity].
    rewrite length_app, (Hu (n + 1)), (Hu (n + 1 + 1)) by lia. simpl. lia. }
  unfold bind, set_payloadLen, ret. cbn [_payload _payloadLen _appearance].
  rewrite (Hu (n + 1)), (Hu (n + 1 + 1)), (Hu (n + 1 + 1 + len)), (Hu ty),
    (Hu (Z.of_nat (length w) + 1)) by lia.
  do 3 f_equal.
  - unfold encode_record. cbn [fst snd]. same_list.
  - lia.
Qed.

(** ** The two shifting loops *)

(** Closing a gap.  [r] is the record being removed, [p1] the bytes
    already moved down, [p2] the bytes still to move. *)
Lemma remove_loop_spec (p2 : list Z) :
  forall (front r p1 tl : list Z) n a field d fuel,
    field = Z.of_nat (length (front ++ p1)) ->
    Z.of_nat (length r) = d + 2 ->
    0 <= d ->
    n = Z.of_nat (length front + length r + length p1 + length p2) ->
    (length p2 < fuel)%nat ->
    remove_loop fuel field d
      (mkGapAdvertisingData
         (front ++ p1 ++ drop (length p1) (r ++ p1) ++ p2 ++ tl) n a)
    = Done (tt, mkGapAdvertisingData
                  (front ++ (p1 ++ p2)
                     ++ drop (length (p1 ++ p2)) (r ++ p1 ++ p2) ++ tl) n a).
Proof.
  induction p2 as [|x p2 IH]; intros front r p1 tl n a field d fuel Hf Hr Hd Hn Hfuel;
    (destruct fuel as [|fuel]; [simpl in Hfuel; lia|]).
  - cbn [remove_loop]. unfold bind, get_payloadLen. cbn [_payloadLen].
    rewrite length_app in Hf. simpl in Hn.
    rewrite (proj2 (Z.ltb_ge _ _)) by lia.
    unfold ret. do 3 f_equal. list_norm. reflexivity.
  - cbn [remove_loop]. unfold bind at 1. unfold get_payloadLen. cbn [_payloadLen].
    rewrite length_app in Hf. simpl in Hn.
    rewrite (proj2 (Z.ltb_lt _ _)) by lia.
    assert (Hdrop : length (drop (length p1) (r ++ p1)) = length r).
    { rewrite length_drop, length_app. lia. }
    erewrite bind_Done; cycle 1.
    { apply (load_at (front ++ p1 ++ drop (length p1) (r ++ p1)) x (p2 ++ tl)).
      - cbn [_payload]. same_list.
      - rewrite !length_app, Hdrop. lia. }
    destruct (r ++ p1) as [|y rest] eqn:Erp.
    { apply (f_equal length) in Erp. rewrite length_app in Erp. simpl in Erp. lia. }
    assert (Hy : exists y', (y :: rest) !! length p1 = Some y').
    { apply lookup_lt_is_Some_2. rewrite <- Erp, length_app. lia. }
    destruct Hy as [y' Hy]. rewrite (drop_S _ _ _ Hy).
    erewrite bind_Done; cycle 1.
    { apply (store_at (front ++ p1) y' (drop (S (length p1)) (y :: rest) ++ x :: p2 ++ tl)).
      - cbn [_payload]. same_list.
      - rewrite length_app. lia. }
    cbn [_payloadLen _appearance].
    specialize (IH front r (p1 ++ [x]) tl n a (field + 1) d fuel).
    rewrite <- Erp.
    replace (drop (length (p1 ++ [x])) (r ++ p1 ++ [x]))
      with (drop (S (length p1)) (r ++ p1) ++ [x]) in IH.
    2:{ rewrite length_app. simpl. rewrite (app_assoc r p1 [x]).
        rewrite (drop_app_le (r ++ p1) [x]) by (rewrite length_app; lia).
        f_equal. f_equal. lia. }
    replace (front ++ (p1 ++ [x]) ++ (drop (S (length p1)) (r ++ p1) ++ [x]) ++ p2 ++ tl)
      with ((front ++ p1) ++ x :: drop (S (length p1)) (r ++ p1) ++ x :: p2 ++ tl) in IH
      by same_list.
    rewrite IH.
    + do 3 f_equal. list_norm. reflexivity.
    + rewrite !length_app. simpl. lia.
    + exact Hr.
    + exact Hd.
    + rewrite length_app. simpl. lia.
    + simpl in Hfuel. lia.
Qed.

(** Opening a gap of [k] bytes.  [m1] are the bytes still to move up,
    [m2] the bytes already moved, [tl] what lay beyond [end]. *)
Lemma shift_loop_spec (m1 : list Z) :
  forall (front m2 tl : list Z) n a field (k : nat) fuel,
    Z.of_nat (length front) = field + 2 ->
    (k <= length tl)%nat ->
    (length m1 < fuel)%nat ->
    shift_loop fuel field (Z.of_nat k) (field + 1 + Z.of_nat (length m1))
      (mkGapAdvertisingData
         (front ++ m1 ++ take k (m2 ++ tl) ++ m2 ++ drop k tl) n a)
    = Done (tt, mkGapAdvertisingData
                  (front ++ take k (m1 ++ m2 ++ tl) ++ m1 ++ m2 ++ drop k tl) n a).
Proof.
  induction m1 as [|x m1 IH] using rev_ind;
    intros front m2 tl n a field k fuel Hfront Hk Hfuel;
    (destruct fuel as [|fuel]; [simpl in Hfuel; lia|]).
  - cbn [shift_loop length]. rewrite (proj2 (Z.ltb_ge _ _)) by lia. reflexivity.
  - rewrite length_app in *. cbn [length] in *. cbn [shift_loop].
    rewrite (proj2 (Z.ltb_lt _ _)) by lia.
    erewrite bind_Done; cycle 1.
    { apply (load_at (front ++ m1) x (take k (m2 ++ tl) ++ m2 ++ drop k tl)).
      - cbn [_payload]. same_list.
      - rewrite length_app. lia. }
    specialize (IH front (x :: m2) tl n a field k fuel Hfront Hk).
    replace (field + 1 + Z.of_nat (length m1 + 1) - 1)
      with (field + 1 + Z.of_nat (length m1)) by lia.
    destruct k as [|k].
    + erewrite bind_Done; cycle 1.
      { apply (store_at (front ++ m1) x (take 0 (m2 ++ tl) ++ m2 ++ drop 0 tl)).
        - cbn [_payload]. same_list.
        - rewrite length_app. lia. }
      cbn [_payloadLen _appearance].
      rewrite ?take_0, ?drop_0 in IH. rewrite ?take_0, ?drop_0. cbn [app] in *.
      replace ((front ++ m1) ++ x :: m2 ++ tl) with (front ++ m1 ++ x :: m2 ++ tl)
        by same_list.
      rewrite IH by lia. do 3 f_equal. same_list.
    + assert (Hz : exists z, (m2 ++ tl) !! k = Some z).
      { apply lookup_lt_is_Some_2. rewrite length_app. lia. }
      destruct Hz as [z Hz].
      rewrite (take_S_r _ _ _ Hz).
      erewrite bind_Done; cycle 1.
      { apply (store_at (front ++ m1 ++ x :: take k (m2 ++ tl)) z (m2 ++ drop (S k) tl)).
        - cbn [_payload]. same_list.
        - rewrite !length_app. cbn [length]. rewrite length_take, length_app. lia. }
      cbn [_payloadLen _appearance].
      replace ((front ++ m1 ++ x :: take k (m2 ++ tl)) ++ x :: m2 ++ drop (S k) tl)
        with (front ++ m1 ++ take (S k) ((x :: m2) ++ tl) ++ (x :: m2) ++ drop (S k) tl)
        by (cbn [firstn app]; same_list).
      rewrite IH by lia. do 3 f_equal. same_list.
Qed.

(** ** The [switch] labels *)

Lemma is_case_In labels t : is_case labels t = true <-> In t labels.
Proof.
  unfold is_case. rewrite existsb_exists. split.
  - intros (x & Hx & E). apply Z.eqb_eq in E. subst. exact Hx.
  - intros H. exists t. split; [exact H|apply Z.eqb_refl].
Qed.

Lemma overwrite_case_byte t : In t overwrite_cases -> 0 <= t < 256.
Proof.
  unfold overwrite_cases. simpl. intros H.
  repeat (destruct H as [<-|H]; [vm_compute; split; [discriminate|reflexivity]|]).
  destruct H.
Qed.

Lemma append_case_byte t : In t append_cases -> 0 <= t < 256.
Proof.
  unfold append_cases. simpl. intros H.
  repeat (destruct H as [<-|H]; [vm_compute; split; [discriminate|reflexivity]|]).
  destruct H.
Qed.

Lemma append_case_not_overwrite t :
  In t append_cases -> is_case overwrite_cases t = false.
Proof.
  unfold append_cases. simpl. intros H.
  repeat (destruct H as [<-|H]; [reflexivity|]).
  destruct H.
Qed.

(** ** What [addData] sees when the type is already present *)

Lemma u8_small x : 0 <= x < 256 -> u8 x = x.
Proof. intros. unfold u8. apply Z.mod_small. lia. Qed.

Lemma load_cases i st :
  load i st = OutOfBounds \/ exists b, load i st = Done (b, st).
Proof.
  unfold load. destruct (decide (0 <= i)); [|left; reflexivity].
  destruct (_ !! _) as [b|]; [right; exists b|left]; reflexivity.
Qed.

Lemma store_outside i x st :
  Z.of_nat (length (_payload st)) <= i -> store i x st = OutOfBounds.
Proof.
  intros H. unfold store. destruct (decide _) as [[? ?]|]; [lia|reflexivity].
Qed.

Lemma shift_loop_step fuel field len end_ :
  shift_loop (S fuel) field len end_
  = if field + 1 <? end_ then
      b <- load end_ ;;
      store (end_ + len) b ;;;
      shift_loop fuel field len (end_ - 1)
    else ret tt.
Proof. reflexivity. Qed.

Section Found.

(** Throughout, the store is [found_store pre post ty v tl a]: [ty] is
    not among the types of [pre], and [tl] fills the array up to its 31
    bytes. *)
Variables (pre post : list record) (ty : DataType_t) (v tl : list Z) (a : Z).
Hypothesis Hpre : Forall (fun r => r.1 <> ty) pre.
Hypothesis Htl :
  Z.of_nat (length tl)
  = 31 - (occupied pre + (Z.of_nat (length v) + 2) + occupied post).

Lemma found_store_holds :
  holds (found_store pre post ty v tl a) (pre ++ (ty, v) :: post).
Proof.
  pose proof (occupied_nonneg pre). pose proof (occupied_nonneg post).
  apply (holds_intro _ _ _ _ tl).
  - rewrite encode_app. cbn [encode encode_record fst snd]. same_list.
  - rewrite occupied_app, occupied_cons. cbn [snd]. lia.
  - rewrite length_app. cbn [length]. rewrite !length_app.
    unfold occupied in *. lia.
Qed.

Lemma found_store_find :
  findField ty (found_store pre post ty v tl a)
  = Done (Some (occupied pre), found_store pre post ty v tl a).
Proof.
  rewrite (findField_spec _ _ ty found_store_holds).
  rewrite find_from_first by exact Hpre. reflexivity.
Qed.

Lemma found_store_load_length :
  load (occupied pre) (found_store pre post ty v tl a)
  = Done (Z.of_nat (length v) + 1, found_store pre post ty v tl a).
Proof.
  apply (load_at (encode pre) _ (ty :: v ++ encode post ++ tl)); reflexivity.
Qed.

(** Overwrite group, same length: the value is overwritten in place, and
    [result] is still the [BLE_ERROR_BUFFER_OVERFLOW] it was
    initialised with. *)
Lemma addData_overwrite_same w extra :
  In ty overwrite_cases ->
  length w = length v ->
  addData ty (Some (w ++ extra)) (Z.of_nat (length w))
    (found_store pre post ty v tl a)
  = Done (BLE_ERROR_BUFFER_OVERFLOW, found_store pre post ty w tl a).
Proof.
  intros Hty Hlen.
  pose proof (occupied_nonneg pre) as Hp0. pose proof (occupied_nonneg post) as Hq0.
  pose proof found_store_find as Hfind. pose proof Htl as Htl'.
  set (n := occupied pre + (Z.of_nat (length v) + 2) + occupied post) in *.
  assert (Hn : 0 <= 31 - n) by lia.
  set (st := found_store pre post ty v tl a) in *.
  unfold addData. erewrite bind_Done by exact Hfind.
  rewrite (proj2 (is_case_In _ _) Hty).
  erewrite bind_Done by apply found_store_load_length.
  replace (Z.of_nat (length v) + 1 - 1) with (Z.of_nat (length v)) by lia.
  rewrite u8_small by lia.
  rewrite Hlen, Z.eqb_refl, Nat2Z.id.
  erewrite bind_Done; cycle 1.
  { pose proof (copy_bytes_spec w v
                  (encode pre ++ [Z.of_nat (length v) + 1; ty])
                  (encode post ++ tl) [] extra n a (occupied pre + 2) 0) as C.
    cbn [app] in C.
    replace ((encode pre ++ [Z.of_nat (length v) + 1; ty]) ++ v ++ encode post ++ tl)
      with (_payload st) in C
      by (subst st; unfold found_store; cbn [_payload]; same_list).
    rewrite Hlen in C.
    apply C; [lia| |reflexivity].
    rewrite length_app. unfold occupied. simpl. lia. }
  unfold ret, found_store. rewrite Hlen. do 3 f_equal. same_list.
Qed.

(** Overwrite group, different length that fits: the old record is
    closed up and the new one appended at the end. *)
Lemma addData_overwrite_resize w extra :
  In ty overwrite_cases ->
  length w <> length v ->
  let n := occupied pre + (Z.of_nat (length v) + 2) + occupied post in
  n - Z.of_nat (length v) + Z.of_nat (length w) <= 31 ->
  exists back,
    addData ty (Some (w ++ extra)) (Z.of_nat (length w))
      (found_store pre post ty v tl a)
    = Done (BLE_ERROR_NONE,
            mkGapAdvertisingData
              (encode (pre ++ post ++ [(ty, w)]) ++ back)
              (n - Z.of_nat (length v) + Z.of_nat (length w)) a)
    /\ Z.of_nat (length back)
       = 31 - (n - Z.of_nat (length v) + Z.of_nat (length w)).
Proof.
  intros Hty Hlen n Hfit.
  pose proof (occupied_nonneg pre) as Hp0. pose proof (occupied_nonneg post) as Hq0.
  pose proof found_store_find as Hfind.
  pose proof (overwrite_case_byte _ Hty) as Hbyte.
  pose proof Htl as Htl'. fold n in Htl'.
  assert (Hn : 0 <= 31 - n) by lia.
  set (r := (Z.of_nat (length v) + 1) :: ty :: v).
  set (rem := drop (length (encode post)) (r ++ encode post) ++ tl).
  assert (Hrem : Z.of_nat (length rem) = Z.of_nat (length v) + 2 + (31 - n)).
  { subst rem r. rewrite length_app, length_drop, length_app. cbn [length]. lia. }
  exists (drop (length w + 2) rem).
  split; [|rewrite length_drop; lia].
  unfold addData. erewrite bind_Done by exact Hfind.
  rewrite (proj2 (is_case_In _ _) Hty).
  erewrite bind_Done by apply found_store_load_length.
  replace (Z.of_nat (length v) + 1 - 1) with (Z.of_nat (length v)) by lia.
  rewrite u8_small by lia.
  rewrite (proj2 (Z.eqb_neq _ _)) by lia.
  step_get. unfold found_store at 1. cbn [_payloadLen]. fold n.
  unfold GAP_ADVERTISING_DATA_MAX_PAYLOAD.
  rewrite (proj2 (Z.leb_le _ _)) by lia.
  erewrite bind_Done; cycle 1.
  { pose proof (remove_loop_spec (encode post) (encode pre) r [] tl n a
                  (occupied pre) (Z.of_nat (length v)) 256) as R.
    cbn [length app] in R. rewrite !app_nil_r, drop_0 in R.
    unfold found_store. fold n.
    replace (encode pre ++ Z.of_nat (length v) + 1 :: ty :: v ++ encode post ++ tl)
      with (encode pre ++ r ++ encode post ++ tl) by (subst r; same_list).
    apply R.
    - reflexivity.
    - subst r. cbn [length]. lia.
    - lia.
    - subst n r. unfold occupied. cbn [length]. lia.
    - unfold occupied in *. lia. }
  step_get. step_set.
  rewrite u8_small by (subst n; lia).
  fold rem.
  replace (encode pre ++ encode post ++ rem)
    with ((encode pre ++ encode post) ++ take (length w + 2) rem
            ++ drop (length w + 2) rem)
    by (rewrite take_drop; same_list).
  erewrite appendField_fits.
  - do 3 f_equal.
    + rewrite !encode_app. cbn [encode]. same_list.
    + lia.
  - rewrite length_app. subst n. unfold occupied. lia.
  - reflexivity.
  - rewrite length_take. lia.
  - unfold GAP_ADVERTISING_DATA_MAX_PAYLOAD. lia.
  - exact Hbyte.
Qed.

Lemma addData_overwrite_nofit payload len :
  In ty overwrite_cases ->
  len <> Z.of_nat (length v) ->
  let n := occupied pre + (Z.of_nat (length v) + 2) + occupied post in
  n - Z.of_nat (length v) + len > 31 ->
  addData ty payload len (found_store pre post ty v tl a)
  = Done (BLE_ERROR_BUFFER_OVERFLOW, found_store pre post ty v tl a).
Proof.
  intros Hty Hlen n Hfit.
  pose proof (occupied_nonneg pre) as Hp0. pose proof (occupied_nonneg post) as Hq0.
  pose proof found_store_find as Hfind.
  pose proof Htl as Htl'. fold n in Htl'.
  unfold addData. erewrite bind_Done by exact Hfind.
  rewrite (proj2 (is_case_In _ _) Hty).
  erewrite bind_Done by apply found_store_load_length.
  replace (Z.of_nat (length v) + 1 - 1) with (Z.of_nat (length v)) by lia.
  rewrite u8_small by lia.
  rewrite (proj2 (Z.eqb_neq _ _)) by lia.
  step_get. unfold found_store at 1. cbn [_payloadLen]. fold n.
  unfold GAP_ADVERTISING_DATA_MAX_PAYLOAD.
  rewrite (proj2 (Z.leb_gt _ _)) by lia. reflexivity.
Qed.

(** Append group, with room to spare: the new bytes go in right after
    the type byte, in front of the bytes the record already had. *)
Lemma addData_append_merge w extra :
  In ty append_cases ->
  let n := occupied pre + (Z.of_nat (length v) + 2) + occupied post in
  n + Z.of_nat (length w) <= 30 ->
  exists back,
    addData ty (Some (w ++ extra)) (Z.of_nat (length w))
      (found_store pre post ty v tl a)
    = Done (BLE_ERROR_NONE, found_store pre post ty (w ++ v) back a)
    /\ Z.of_nat (length back) = 31 - (n + Z.of_nat (length w)).
Proof.
  intros Hty n Hfit.
  pose proof (occupied_nonneg pre) as Hp0. pose proof (occupied_nonneg post) as Hq0.
  pose proof found_store_find as Hfind.
  pose proof (append_case_byte _ Hty) as Hbyte.
  pose proof Htl as Htl'. fold n in Htl'. clear Htl.
  destruct tl as [|t0 tl0]; [simpl in Htl'; lia|]. cbn [length] in Htl'.
  exists (t0 :: drop (length w) tl0).
  split; [|cbn [length]; rewrite length_drop; lia].
  unfold addData. erewrite bind_Done by exact Hfind.
  rewrite (append_case_not_overwrite _ Hty), (proj2 (is_case_In _ _) Hty).
  step_get. unfold found_store at 1. cbn [_payloadLen]. fold n.
  unfold GAP_ADVERTISING_DATA_MAX_PAYLOAD.
  rewrite (proj2 (Z.leb_le _ _)) by lia.
  set (front := encode pre ++ [Z.of_nat (length v) + 1; ty]).
  set (m1 := v ++ encode post ++ [t0]).
  assert (Hfront : Z.of_nat (length front) = occupied pre + 2).
  { subst front. rewrite length_app. unfold occupied. cbn [length]. lia. }
  assert (Hm1 : Z.of_nat (length m1) = Z.of_nat (length v) + occupied post + 1).
  { subst m1. rewrite !length_app. unfold occupied. cbn [length]. lia. }
  erewrite bind_Done; cycle 1.
  { pose proof (shift_loop_spec m1 front [] tl0 n a (occupied pre) (length w) 256) as S.
    cbn [app] in S. rewrite take_drop in S.
    replace (occupied pre + 1 + Z.of_nat (length m1)) with n in S by (subst n; lia).
    unfold found_store. fold n.
    replace (encode pre ++ Z.of_nat (length v) + 1 :: ty :: v ++ encode post ++ t0 :: tl0)
      with (front ++ m1 ++ tl0) by (subst front m1; same_list).
    apply S; lia. }
  erewrite bind_Done; cycle 1.
  { pose proof (copy_bytes_spec w (take (length w) (m1 ++ tl0)) front
                  (m1 ++ drop (length w) tl0) [] extra n a (occupied pre + 2) 0) as C.
    cbn [app] in C. rewrite Nat2Z.id. apply C; [|lia|reflexivity].
    rewrite length_take, length_app. lia. }
  erewrite bind_Done; cycle 1.
  { apply (load_at (encode pre) (Z.of_nat (length v) + 1)
                   (ty :: w ++ m1 ++ drop (length w) tl0)).
    - cbn [_payload]. subst front. same_list.
    - reflexivity. }
  erewrite bind_Done; cycle 1.
  { apply (store_at (encode pre) (Z.of_nat (length v) + 1)
                    (ty :: w ++ m1 ++ drop (length w) tl0)).
    - cbn [_payload]. subst front. same_list.
    - reflexivity. }
  cbn [_payloadLen _appearance].
  step_get. step_set. unfold ret, found_store.
  rewrite !u8_small by lia. do 3 f_equal.
  - rewrite length_app. subst m1.
    replace (Z.of_nat (length w + length v) + 1)
      with (Z.of_nat (length v) + 1 + Z.of_nat (length w)) by lia.
    same_list.
  - rewrite length_app. subst n. lia.
Qed.

(** Append group, when the new bytes fill the array exactly: the first
    iteration of the shifting loop reads [_payload[_payloadLen]] and
    writes [_payload[_payloadLen + len]], which is [_payload[31]]. *)
Lemma addData_append_outside payload len :
  In ty append_cases ->
  let n := occupied pre + (Z.of_nat (length v) + 2) + occupied post in
  n + len = 31 ->
  addData ty payload len (found_store pre post ty v tl a) = OutOfBounds.
Proof.
  intros Hty n Hfit.
  pose proof (occupied_nonneg pre) as Hp0. pose proof (occupied_nonneg post) as Hq0.
  pose proof found_store_find as Hfind.
  pose proof Htl as Htl'. fold n in Htl'.
  assert (Hlenp : Z.of_nat (length (_payload (found_store pre post ty v tl a))) = 31).
  { unfold found_store. cbn [_payload]. rewrite length_app. cbn [length].
    rewrite !length_app. subst n. unfold occupied in *. lia. }
  unfold addData. erewrite bind_Done by exact Hfind.
  rewrite (append_case_not_overwrite _ Hty), (proj2 (is_case_In _ _) Hty).
  step_get. change (_payloadLen (found_store pre post ty v tl a)) with n.
  unfold GAP_ADVERTISING_DATA_MAX_PAYLOAD.
  rewrite (proj2 (Z.leb_le _ _)) by lia.
  change (shift_loop 256) with (shift_loop (S 255)).
  rewrite shift_loop_step.
  rewrite (proj2 (Z.ltb_lt _ _)) by (subst n; lia).
  unfold bind at 1. unfold bind at 1.
  destruct (load_cases n (found_store pre post ty v tl a)) as [->|[b ->]];
    [reflexivity|].
  unfold bind at 1. rewrite store_outside by lia. reflexivity.
Qed.

Lemma addData_append_nofit payload len :
  In ty append_cases ->
  let n := occupied pre + (Z.of_nat (length v) + 2) + occupied post in
  n + len > 31 ->
  addData ty payload len (found_store pre post ty v tl a)
  = Done (BLE_ERROR_BUFFER_OVERFLOW, found_store pre post ty v tl a).
Proof.
  intros Hty n Hfit.
  pose proof found_store_find as Hfind.
  unfold addData. erewrite bind_Done by exact Hfind.
  rewrite (append_case_not_overwrite _ Hty), (proj2 (is_case_In _ _) Hty).
  step_get. unfold found_store at 1. cbn [_payloadLen]. fold n.
  unfold GAP_ADVERTISING_DATA_MAX_PAYLOAD.
  rewrite (proj2 (Z.leb_gt _ _)) by lia. reflexivity.
Qed.

(** A type outside both groups that is already present. *)
Lemma addData_default payload len :
  ~ In ty overwrite_cases ->
  ~ In ty append_cases ->
  addData ty payload len (found_store pre post ty v tl a)
  = Done (BLE_ERROR_NOT_IMPLEMENTED, found_store pre post ty v tl a).
Proof.
  intros Ho Ha.
  pose proof found_store_find as Hfind.
  unfold addData. erewrite bind_Done by exact Hfind.
  destruct (is_case overwrite_cases ty) eqn:E1;
    [apply is_case_In in E1; contradiction|].
  destruct (is_case append_cases ty) eqn:E2;
    [apply is_case_In in E2; contradiction|].
  reflexivity.
Qed.

End Found.

(** The type is not in the buffer: [addData] is [appendField]. *)
Lemma addData_absent st recs ty payload len :
  holds st recs ->
  Forall (fun r => r.1 <> ty) recs ->
  addData ty payload len st = appendField ty payload len st.
Proof.
  intros H Hrecs. unfold addData.
  erewrite bind_Done by (apply (findField_spec _ _ _ H)).
  rewrite find_from_none by exact Hrecs. reflexivity.
Qed.

(** ** [updateData] *)

Lemma updateData_loop_spec ty w extra a tail (post pre : list record) fuel :
  (length post < fuel)%nat ->
  occupied (pre ++ post) <= 255 ->
  let st := mkGapAdvertisingData (encode pre ++ encode post ++ tail)
                                 (occupied (pre ++ post)) a in
  updateData_loop fuel ty (Some (w ++ extra)) (Z.of_nat (length w)) (occupied pre) st
  = match update_records ty w post with
    | Some post' =>
        Done (BLE_ERROR_NONE,
              mkGapAdvertisingData (encode pre ++ encode post' ++ tail)
                                   (occupied (pre ++ post)) a)
    | None => Done (BLE_ERROR_UNSPECIFIED, st)
    end.
Proof.
  revert pre fuel. induction post as [|[t v] post IH]; intros pre fuel Hfuel Hsz st.
  - destruct fuel as [|fuel]; [simpl in Hfuel; lia|].
    simpl. unfold bind, get_payloadLen. subst st. simpl.
    rewrite app_nil_r, Z.ltb_irrefl. reflexivity.
  - destruct fuel as [|fuel]; [simpl in Hfuel; lia|].
    pose proof (occupied_nonneg post) as Hpost. pose proof (occupied_nonneg pre) as Hpre.
    assert (Hsz' : occupied (pre ++ (t, v) :: post)
                   = occupied pre + Z.of_nat (length v) + 2 + occupied post).
    { rewrite occupied_app, occupied_cons. simpl. lia. }
    assert (Heq : occupied (pre ++ [(t, v)]) = occupied pre + Z.of_nat (length v) + 2).
    { rewrite occupied_app, occupied_cons. unfold occupied at 2. simpl. lia. }
    cbn [updateData_loop]. unfold bind at 1. unfold get_payloadLen.
    cbn [_payloadLen st]. rewrite (proj2 (Z.ltb_lt _ _)) by lia.
    erewrite bind_Done; cycle 1.
    { apply (load_at (encode pre) (Z.of_nat (length v) + 1)
                     (t :: v ++ encode post ++ tail)).
      - subst st. cbn [_payload encode encode_record fst snd]. same_list.
      - reflexivity. }
    replace (u8 (occupied pre + (Z.of_nat (length v) + 1 + 1)))
      with (occupied (pre ++ [(t, v)])) by (rewrite u8_small; lia).
    (* what the scan does from the next record on *)
    assert (Hnext :
      updateData_loop fuel ty (Some (w ++ extra)) (Z.of_nat (length w))
        (occupied (pre ++ [(t, v)])) st
      = match update_records ty w post with
        | Some post' =>
            Done (BLE_ERROR_NONE,
                  mkGapAdvertisingData
                    (encode pre ++ encode ((t, v) :: post') ++ tail)
                    (occupied (pre ++ (t, v) :: post)) a)
        | None => Done (BLE_ERROR_UNSPECIFIED, st)
        end).
    { specialize (IH (pre ++ [(t, v)]) fuel).
      rewrite <- (app_assoc pre [(t, v)] post) in IH. cbn [app] in IH.
      subst st. cbn [encode].
      replace (encode pre ++ (encode_record (t, v) ++ encode post) ++ tail)
        with (encode (pre ++ [(t, v)]) ++ encode post ++ tail)
        by (rewrite encode_app; cbn [encode]; same_list).
      rewrite IH by (simpl in Hfuel; lia || exact Hsz).
      destruct (update_records ty w post) as [post'|]; [|reflexivity].
      do 3 f_equal. rewrite encode_app. cbn [encode]. same_list. }
    cbn [update_records fst snd].
    destruct (Z.of_nat (length v) =? Z.of_nat (length w)) eqn:El.
    + apply Z.eqb_eq in El.
      rewrite (proj2 (Z.eqb_eq _ _)) by lia.
      erewrite bind_Done; cycle 1.
      { apply (load_at (encode pre ++ [Z.of_nat (length v) + 1]) t
                       (v ++ encode post ++ tail)).
        - subst st. cbn [_payload encode encode_record fst snd]. same_list.
        - rewrite length_app. unfold occupied. simpl. lia. }
      destruct (t =? ty) eqn:Et; cbn [andb].
      * apply Z.eqb_eq in Et. subst t. unfold memcpy. rewrite Nat2Z.id.
        erewrite bind_Done; cycle 1.
        { pose proof (copy_bytes_spec w v
                        (encode pre ++ [Z.of_nat (length v) + 1; ty])
                        (encode post ++ tail) [] extra
                        (occupied (pre ++ (ty, v) :: post)) a (occupied pre + 2) 0) as C.
          cbn [app] in C.
          replace ((encode pre ++ [Z.of_nat (length v) + 1; ty])
                     ++ v ++ encode post ++ tail)
            with (_payload st) in C
            by (subst st; cbn [_payload encode encode_record fst snd]; same_list).
          apply C; [lia| |reflexivity].
          rewrite length_app. unfold occupied. simpl. lia. }
        unfold ret. do 3 f_equal. cbn [encode]. unfold encode_record.
        cbn [fst snd]. rewrite <- El. same_list.
      * destruct (update_records ty w post) as [post'|]; exact Hnext.
    + apply Z.eqb_neq in El.
      rewrite (proj2 (Z.eqb_neq _ _)) by lia. cbn [andb].
      destruct (update_records ty w post) as [post'|]; exact Hnext.
Qed.

(** ** Decoding is the inverse of encoding *)

Lemma records_count (recs : list record) : 2 * Z.of_nat (length recs) <= occupied recs.
Proof.
  induction recs as [|r recs IH]; [unfold occupied; simpl; lia|].
  rewrite occupied_cons. cbn [length]. lia.
Qed.

Lemma decode_encode (recs : list record) fuel :
  (length recs < fuel)%nat -> decode fuel (encode recs) = Some recs.
Proof.
  revert fuel. induction recs as [|[t v] recs IH]; intros fuel Hfuel;
    (destruct fuel as [|fuel]; [simpl in Hfuel; lia|]); [reflexivity|].
  cbn [encode encode_record fst snd app decode].
  replace (Z.of_nat (length v) + 1 - 1) with (Z.of_nat (length v)) by lia.
  rewrite Nat2Z.id.
  destruct (decide _) as [_|Hn].
  - rewrite drop_app_length, take_app_length, IH by (simpl in Hfuel; lia).
    reflexivity.
  - exfalso. apply Hn. rewrite length_app. lia.
Qed.

Lemma encode_decode fuel (bytes : list Z) (recs : list record) :
  decode fuel bytes = Some recs -> encode recs = bytes.
Proof.
  revert bytes recs. induction fuel as [|fuel IH]; intros bytes recs H;
    [discriminate|].
  cbn [decode] in H.
  destruct bytes as [|l [|ty more]]; [injection H as <-; reflexivity|discriminate|].
  destruct (decide _) as [[Hl Hm]|]; [|discriminate].
  destruct (decode fuel _) as [recs'|] eqn:E; [|discriminate].
  injection H as <-. apply IH in E.
  cbn [encode encode_record fst snd app]. rewrite E, length_take.
  f_equal; [lia|]. f_equal. apply take_drop.
Qed.

Lemma records_holds st recs : records st = Some recs <-> holds st recs.
Proof.
  unfold records, holds. split.
  - destruct (decide _) as [[Hlen Hn]|]; [|discriminate].
    intros H. apply encode_decode in H. auto.
  - intros (Hlen & Hn & Htake).
    destruct (decide _) as [_|Hd]; [|exfalso; apply Hd; auto].
    rewrite Htake. apply decode_encode.
    pose proof (records_count recs) as Hc.
    assert (occupied recs = _payloadLen st).
    { unfold occupied. rewrite <- Htake, length_take.
      unfold GAP_ADVERTISING_DATA_MAX_PAYLOAD in *. lia. }
    lia.
Qed.

(** The private scan returns the offset of the length byte of the first
    record of the type, and NULL when there is none; it completes
    without leaving the array. *)
Lemma findField_first st (pre post : list record) ty v :
  records st = Some (pre ++ (ty, v) :: post) ->
  Forall (fun r => r.1 <> ty) pre ->
  findField ty st = Done (Some (occupied pre), st).
Proof.
  intros H Hpre. apply records_holds in H.
  rewrite (findField_spec _ _ ty H), find_from_first by exact Hpre. reflexivity.
Qed.

Lemma findField_absent st (recs : list record) ty :
  records st = Some recs ->
  Forall (fun r => r.1 <> ty) recs ->
  findField ty st = Done (None, st).
Proof.
  intros H Hrecs. apply records_holds in H.
  rewrite (findField_spec _ _ ty H), find_from_none by exact Hrecs. reflexivity.
Qed.

(** A store that holds [pre ++ (ty, v) :: post] has the shape
    [found_store]. *)
Lemma holds_found_store st (pre post : list record) ty v :
  holds st (pre ++ (ty, v) :: post) ->
  exists tl,
    st = found_store pre post ty v tl (_appearance st) /\
    Z.of_nat (length tl)
      = 31 - (occupied pre + (Z.of_nat (length v) + 2) + occupied post) /\
    _payloadLen st = occupied pre + (Z.of_nat (length v) + 2) + occupied post.
Proof.
  intros H.
  destruct (holds_split _ _ H) as (Hp & Hn & Hsz & Htl).
  rewrite occupied_app, occupied_cons in Hn, Hsz, Htl. cbn [snd] in *.
  exists (drop (Z.to_nat (_payloadLen st)) (_payload st)).
  repeat split; [|lia|lia].
  destruct st as [p n a]. unfold found_store.
  cbn [_payload _payloadLen _appearance] in *.
  f_equal; [|lia].
  rewrite Hp at 1. rewrite encode_app. cbn [encode encode_record fst snd].
  same_list.
Qed.

(** ** [addData] on a store that holds records *)

(** The bytes the callee reads through an argument pointer. *)
Lemma arg_split (bytes : list Z) len :
  0 <= len <= Z.of_nat (length bytes) ->
  bytes = take (Z.to_nat len) bytes ++ drop (Z.to_nat len) bytes /\
  Z.of_nat (length (take (Z.to_nat len) bytes)) = len.
Proof.
  intros H. split; [symmetry; apply take_drop|]. rewrite length_take. lia.
Qed.

Lemma addData_new st recs ty bytes len :
  holds st recs ->
  Forall (fun r => r.1 <> ty) recs ->
  0 <= ty < 256 ->
  0 <= len <= Z.of_nat (length bytes) ->
  if _payloadLen st + len + 2 >? 31 then
    addData ty (Some bytes) len st = Done (BLE_ERROR_BUFFER_OVERFLOW, st)
  else
    exists st',
      addData ty (Some bytes) len st = Done (BLE_ERROR_NONE, st') /\
      holds st' (recs ++ [(ty, take (Z.to_nat len) bytes)]) /\
      _payloadLen st' = _payloadLen st + len + 2 /\
      _appearance st' = _appearance st.
Proof.
  intros H Hrecs Hty Hlen.
  rewrite (addData_absent st recs ty _ _ H Hrecs).
  destruct (_payloadLen st + len + 2 >? 31) eqn:E.
  - apply appendField_overflow. unfold GAP_ADVERTISING_DATA_MAX_PAYLOAD.
    rewrite Z.gtb_ltb in E. apply Z.ltb_lt in E. lia.
  - rewrite Z.gtb_ltb in E. apply Z.ltb_ge in E.
    destruct (holds_split _ _ H) as (Hp & Hn & Hsz & Htl).
    destruct (arg_split bytes len Hlen) as (Hb & Hw).
    set (w := take (Z.to_nat len) bytes) in *.
    set (tl := drop (Z.to_nat (_payloadLen st)) (_payload st)) in *.
    destruct st as [p n a]. cbn [_payload _payloadLen _appearance] in *.
    pose proof (appendField_fits ty w (drop (Z.to_nat len) bytes) (encode recs)
                  (take (length w + 2) tl) (drop (length w + 2) tl) n a len) as A.
    rewrite <- Hb, take_drop, <- Hp in A.
    assert (Hjunk : length (take (length w + 2) tl) = (length w + 2)%nat)
      by (rewrite length_take; lia).
    specialize (A Hn (eq_sym Hw) Hjunk).
    unfold GAP_ADVERTISING_DATA_MAX_PAYLOAD in A.
    specialize (A E Hty).
    eexists. split; [exact A|].
    cbn [_payloadLen _appearance]. split; [|split; reflexivity].
    apply (holds_intro _ _ _ _ (drop (length w + 2) tl)).
    + rewrite encode_app. cbn [encode]. same_list.
    + rewrite occupied_app, occupied_cons. change (occupied []) with 0. cbn [snd]. lia.
    + rewrite !length_app, length_drop. unfold encode_record. cbn [length snd].
      unfold occupied in *. lia.
Qed.

Lemma addData_replace_same st (pre post : list record) ty v bytes len :
  holds st (pre ++ (ty, v) :: post) ->
  Forall (fun r => r.1 <> ty) pre ->
  In ty overwrite_cases ->
  0 <= len <= Z.of_nat (length bytes) ->
  len = Z.of_nat (length v) ->
  exists st',
    addData ty (Some bytes) len st = Done (BLE_ERROR_BUFFER_OVERFLOW, st') /\
    holds st' (pre ++ (ty, take (Z.to_nat len) bytes) :: post) /\
    _payloadLen st' = _payloadLen st /\
    drop (Z.to_nat (_payloadLen st)) (_payload st')
      = drop (Z.to_nat (_payloadLen st)) (_payload st) /\
    _appearance st' = _appearance st.
Proof.
  intros H Hpre Hty Hlen Hv.
  destruct (holds_found_store _ _ _ _ _ H) as (tl & Hst & Htl & Hn).
  destruct (arg_split bytes len Hlen) as (Hb & Hw).
  set (w := take (Z.to_nat len) bytes) in *.
  assert (Hwv : length w = length v) by lia.
  pose proof (addData_overwrite_same pre post ty v tl (_appearance st) Hpre Htl
                w (drop (Z.to_nat len) bytes) Hty Hwv) as A.
  rewrite <- Hb, Hw, <- Hst in A.
  exists (found_store pre post ty w tl (_appearance st)).
  split; [exact A|]. split; [|split; [|split]].
  - apply found_store_holds. rewrite Hwv. exact Htl.
  - unfold found_store. cbn [_payloadLen]. rewrite Hwv. lia.
  - assert (Hp : _payload st
                 = encode pre ++ Z.of_nat (length v) + 1 :: ty :: v ++ encode post ++ tl)
      by (rewrite Hst at 1; reflexivity).
    rewrite Hp, Hn. unfold found_store. cbn [_payload].
    pose proof (occupied_nonneg pre). pose proof (occupied_nonneg post).
    replace (encode pre ++ Z.of_nat (length v) + 1 :: ty :: v ++ encode post ++ tl)
      with ((encode pre ++ Z.of_nat (length v) + 1 :: ty :: v ++ encode post) ++ tl)
      by same_list.
    replace (encode pre ++ Z.of_nat (length w) + 1 :: ty :: w ++ encode post ++ tl)
      with ((encode pre ++ Z.of_nat (length w) + 1 :: ty :: w ++ encode post) ++ tl)
      by same_list.
    rewrite !drop_app_length'; [reflexivity| |].
    + rewrite length_app. cbn [length]. rewrite length_app. unfold occupied. lia.
    + rewrite length_app. cbn [length]. rewrite length_app. unfold occupied. lia.
  - reflexivity.
Qed.

Lemma addData_replace_resize st (pre post : list record) ty v bytes len :
  holds st (pre ++ (ty, v) :: post) ->
  Forall (fun r => r.1 <> ty) pre ->
  In ty overwrite_cases ->
  0 <= len <= Z.of_nat (length bytes) ->
  len <> Z.of_nat (length v) ->
  if _payloadLen st - Z.of_nat (length v) + len <=? 31 then
    exists st',
      addData ty (Some bytes) len st = Done (BLE_ERROR_NONE, st') /\
      holds st' (pre ++ post ++ [(ty, take (Z.to_nat len) bytes)]) /\
      _payloadLen st' = _payloadLen st + (len - Z.of_nat (length v)) /\
      _appearance st' = _appearance st
  else
    addData ty (Some bytes) len st = Done (BLE_ERROR_BUFFER_OVERFLOW, st).
Proof.
  intros H Hpre Hty Hlen Hv.
  destruct (holds_found_store _ _ _ _ _ H) as (tl & Hst & Htl & Hn).
  destruct (arg_split bytes len Hlen) as (Hb & Hw).
  set (w := take (Z.to_nat len) bytes) in *.
  destruct (_payloadLen st - Z.of_nat (length v) + len <=? 31) eqn:E.
  - apply Z.leb_le in E.
    destruct (addData_overwrite_resize pre post ty v tl (_appearance st) Hpre Htl
                w (drop (Z.to_nat len) bytes) Hty) as (back & A & Hback);
      [lia|lia|].
    rewrite <- Hb, Hw, <- Hst in A.
    eexists. split; [exact A|]. cbn [_payloadLen _appearance].
    split; [|split; [lia|reflexivity]].
    apply (holds_intro _ _ _ _ back); [reflexivity| |].
    + rewrite occupied_app, occupied_app, occupied_cons. change (occupied []) with 0.
      cbn [snd]. lia.
    + rewrite length_app. rewrite Nat2Z.inj_add, Hback.
      change (Z.of_nat (length (encode (pre ++ post ++ [(ty, w)]))))
        with (occupied (pre ++ post ++ [(ty, w)])).
      rewrite occupied_app, occupied_app, occupied_cons. change (occupied []) with 0.
      cbn [snd]. lia.
  - apply Z.leb_gt in E. rewrite Hst at 1 2.
    apply addData_overwrite_nofit; try assumption; lia.
Qed.

Lemma addData_merge st (pre post : list record) ty v bytes len :
  holds st (pre ++ (ty, v) :: post) ->
  Forall (fun r => r.1 <> ty) pre ->
  In ty append_cases ->
  0 <= len <= Z.of_nat (length bytes) ->
  _payloadLen st + len <= 30 ->
  exists st',
    addData ty (Some bytes) len st = Done (BLE_ERROR_NONE, st') /\
    holds st' (pre ++ (ty, take (Z.to_nat len) bytes ++ v) :: post) /\
    _payloadLen st' = _payloadLen st + len /\
    _appearance st' = _appearance st.
Proof.
  intros H Hpre Hty Hlen Hfit.
  destruct (holds_found_store _ _ _ _ _ H) as (tl & Hst & Htl & Hn).
  destruct (arg_split bytes len Hlen) as (Hb & Hw).
  set (w := take (Z.to_nat len) bytes) in *.
  destruct (addData_append_merge pre post ty v tl (_appearance st) Hpre Htl
              w (drop (Z.to_nat len) bytes) Hty) as (back & A & Hback); [lia|].
  rewrite <- Hb, Hw, <- Hst in A.
  eexists. split; [exact A|]. split; [|split].
  - apply found_store_holds. rewrite Hback, length_app. lia.
  - unfold found_store. cbn [_payloadLen]. rewrite length_app. lia.
  - reflexivity.
Qed.

Lemma addData_merge_outside st (pre post : list record) ty v payload len :
  holds st (pre ++ (ty, v) :: post) ->
  Forall (fun r => r.1 <> ty) pre ->
  In ty append_cases ->
  _payloadLen st + len = 31 ->
  addData ty payload len st = OutOfBounds.
Proof.
  intros H Hpre Hty Hfit.
  destruct (holds_found_store _ _ _ _ _ H) as (tl & Hst & Htl & Hn).
  rewrite Hst. apply addData_append_outside; try assumption. lia.
Qed.

Lemma addData_merge_nofit st (pre post : list record) ty v payload len :
  holds st (pre ++ (ty, v) :: post) ->
  Forall (fun r => r.1 <> ty) pre ->
  In ty append_cases ->
  _payloadLen st + len > 31 ->
  addData ty payload len st = Done (BLE_ERROR_BUFFER_OVERFLOW, st).
Proof.
  intros H Hpre Hty Hfit.
  destruct (holds_found_store _ _ _ _ _ H) as (tl & Hst & Htl & Hn).
  rewrite Hst at 1 2. apply addData_append_nofit; try assumption. lia.
Qed.

Lemma addData_other st (pre post : list record) ty v payload len :
  holds st (pre ++ (ty, v) :: post) ->
  Forall (fun r => r.1 <> ty) pre ->
  ~ In ty overwrite_cases ->
  ~ In ty append_cases ->
  addData ty payload len st = Done (BLE_ERROR_NOT_IMPLEMENTED, st).
Proof.
  intros H Hpre Ho Ha.
  destruct (holds_found_store _ _ _ _ _ H) as (tl & Hst & Htl & Hn).
  rewrite Hst at 1 2. apply addData_default; assumption.
Qed.

(** ** [updateData] on a store that holds records *)

Lemma updateData_holds st recs ty bytes len :
  holds st recs ->
  0 < len <= Z.of_nat (length bytes) ->
  match update_records ty (take (Z.to_nat len) bytes) recs with
  | Some recs' =>
      exists st',
        updateData ty (Some bytes) len st = Done (BLE_ERROR_NONE, st') /\
        holds st' recs' /\
        _payloadLen st' = _payloadLen st /\
        drop (Z.to_nat (_payloadLen st)) (_payload st')
          = drop (Z.to_nat (_payloadLen st)) (_payload st) /\
        _appearance st' = _appearance st
  | None => updateData ty (Some bytes) len st = Done (BLE_ERROR_UNSPECIFIED, st)
  end.
Proof.
  intros H Hlen.
  destruct (holds_split _ _ H) as (Hp & Hn & Hsz & Htl).
  destruct (arg_split bytes len) as (Hb & Hw); [lia|].
  set (w := take (Z.to_nat len) bytes) in *.
  set (tl := drop (Z.to_nat (_payloadLen st)) (_payload st)) in *.
  pose proof (updateData_loop_spec ty w (drop (Z.to_nat len) bytes)
                (_appearance st) tl recs [] 256) as L.
  cbv zeta in L. cbn [app encode] in L. change (occupied []) with 0 in L.
  rewrite <- Hb, Hw, <- Hp, <- Hn in L.
  pose proof (records_count recs) as Hc.
  specialize (L ltac:(lia) ltac:(lia)).
  assert (Hupd : updateData ty (Some bytes) len st
                 = updateData_loop 256 ty (Some bytes) len 0 st).
  { unfold updateData. rewrite (proj2 (Z.eqb_neq _ _)) by lia. reflexivity. }
  rewrite Hupd.
  replace {| _payload := _payload st; _payloadLen := _payloadLen st;
             _appearance := _appearance st |} with st in L by (destruct st; reflexivity).
  rewrite L.
  destruct (update_records ty w recs) as [recs'|] eqn:E; [|reflexivity].
  assert (Hsize : occupied recs' = occupied recs).
  { clear -E. revert recs' E. induction recs as [|[t v] recs IH]; intros recs' E;
      [discriminate|].
    cbn [update_records fst snd] in E.
    destruct (_ && _) eqn:B.
    - injection E as <-. apply andb_true_iff in B as [B _].
      apply Z.eqb_eq in B. rewrite !occupied_cons. cbn [snd]. lia.
    - destruct (update_records ty w recs) as [r''|]; [|discriminate].
      injection E as <-. rewrite !occupied_cons, (IH r'' eq_refl). reflexivity. }
  eexists. split; [reflexivity|].
  cbn [_payload _payloadLen _appearance].
  split; [|split; [reflexivity|split; [|reflexivity]]].
  - apply (holds_intro _ _ _ _ tl); [reflexivity|lia|].
    rewrite length_app. unfold occupied in *. lia.
  - rewrite Hn, <- Hsize. unfold occupied. rewrite Nat2Z.id, drop_app_length.
    reflexivity.
Qed.

Lemma updateData_invalid ty payload len st :
  payload = None \/ len = 0 ->
  updateData ty payload len st = Done (BLE_ERROR_INVALID_PARAM, st).
Proof.
  intros [->| ->]; [reflexivity|]. unfold updateData.
  destruct payload; reflexivity.
Qed.

(** The records [update_records] rewrites, seen from the list. *)
Lemma update_records_first ty w (pre post : list record) v :
  Forall (fun r => ~ (r.1 = ty /\ length r.2 = length w)) pre ->
  length v = length w ->
  update_records ty w (pre ++ (ty, v) :: post) = Some (pre ++ (ty, w) :: post).
Proof.
  intros Hpre Hv. induction pre as [|[t u] pre IH]; cbn [app update_records fst snd].
  - rewrite Hv, !Z.eqb_refl. reflexivity.
  - inversion Hpre as [|? ? Hr Hpre']; subst. cbn [fst snd] in Hr.
    destruct ((Z.of_nat (length u) =? Z.of_nat (length w)) && (t =? ty)) eqn:B.
    + apply andb_true_iff in B as [B1 B2].
      apply Z.eqb_eq in B1, B2. exfalso. apply Hr. split; [assumption|lia].
    + rewrite IH by assumption. reflexivity.
Qed.

Lemma update_records_none ty w (recs : list record) :
  Forall (fun r => ~ (r.1 = ty /\ length r.2 = length w)) recs ->
  update_records ty w recs = None.
Proof.
  intros H. induction recs as [|[t u] recs IH]; [reflexivity|].
  inversion H as [|? ? Hr H']; subst. cbn [fst snd update_records] in *.
  destruct ((Z.of_nat (length u) =? Z.of_nat (length w)) && (t =? ty)) eqn:B.
  - apply andb_true_iff in B as [B1 B2].
    apply Z.eqb_eq in B1, B2. exfalso. apply Hr. split; [assumption|lia].
  - rewrite IH by assumption. reflexivity.
Qed.

(** ** Every outcome of [addData] *)

(** On a store that holds records [addData] either completes, leaving a
    store that holds records and the same cached appearance, or it is
    the merge of the append group that fills the array exactly. *)
Lemma addData_outcome st recs ty bytes len :
  holds st recs ->
  0 <= ty < 256 ->
  0 <= len <= Z.of_nat (length bytes) ->
  (exists r st' recs',
     addData ty (Some bytes) len st = Done (r, st') /\
     holds st' recs' /\ _appearance st' = _appearance st)
  \/
  (addData ty (Some bytes) len st = OutOfBounds /\
   In ty append_cases /\ _payloadLen st + len = 31).
Proof.
  intros H Hty Hlen.
  destruct (first_of_type ty recs) as [Habs|(pre & v & post & -> & Hpre)].
  - left. pose proof (addData_new st recs ty bytes len H Habs Hty Hlen) as A.
    destruct (_payloadLen st + len + 2 >? 31).
    + exists BLE_ERROR_BUFFER_OVERFLOW, st, recs. auto.
    + destruct A as (st' & A & Hh & _ & Ha). eauto 8.
  - destruct (in_dec Z.eq_dec ty overwrite_cases) as [Ho|Ho].
    + left. destruct (Z.eq_dec len (Z.of_nat (length v))) as [E|E].
      * destruct (addData_replace_same st pre post ty v bytes len H Hpre Ho Hlen E)
          as (st' & A & Hh & _ & _ & Ha).
        eauto 8.
      * pose proof (addData_replace_resize st pre post ty v bytes len H Hpre Ho Hlen E)
          as A.
        destruct (_payloadLen st - Z.of_nat (length v) + len <=? 31).
        -- destruct A as (st' & A & Hh & _ & Ha). eauto 8.
        -- exists BLE_ERROR_BUFFER_OVERFLOW, st, (pre ++ (ty, v) :: post). auto.
    + destruct (in_dec Z.eq_dec ty append_cases) as [Ha|Ha].
      * destruct (Z_lt_le_dec (_payloadLen st + len) 31) as [Hlt|Hge].
        -- left.
           destruct (addData_merge st pre post ty v bytes len H Hpre Ha Hlen)
             as (st' & A & Hh & _ & Happ); [lia|].
           eauto 8.
        -- destruct (Z.eq_dec (_payloadLen st + len) 31) as [E|E].
           ++ right. split; [|auto].
              apply (addData_merge_outside st pre post ty v); assumption.
           ++ left. exists BLE_ERROR_BUFFER_OVERFLOW, st, (pre ++ (ty, v) :: post).
              split; [|auto].
              apply (addData_merge_nofit st pre post ty v); try assumption. lia.
      * left. exists BLE_ERROR_NOT_IMPLEMENTED, st, (pre ++ (ty, v) :: post).
        split; [|auto].
        apply (addData_other st pre post ty v); assumption.
Qed.

Lemma holds_new : holds GapAdvertisingData_new [].
Proof. unfold holds. repeat split; vm_compute; congruence. Qed.

Lemma holds_clear st recs :
  holds st recs ->
  exists st', clear st = Done (tt, st') /\ holds st' [] /\
              _appearance st' = _appearance st.
Proof.
  intros (Hlen & _). eexists. split; [reflexivity|]. split; [|reflexivity].
  unfold holds, GAP_ADVERTISING_DATA_MAX_PAYLOAD in *. cbn [_payload _payloadLen].
  rewrite length_app, length_replicate, length_drop.
  repeat split; try lia.
Qed.

(** ** Sequences of calls *)

Lemma perform_outcome st recs c :
  holds st recs ->
  valid_call c ->
  perform c st = OutOfBounds \/
  exists st' recs', perform c st = Done (tt, st') /\ holds st' recs'.
Proof.
  intros H Hc.
  assert (Hadd : forall ty bytes len st0,
    holds st0 recs -> 0 <= ty < 256 -> 0 <= len <= Z.of_nat (length bytes) ->
    (addData ty (Some bytes) len ;;; ret tt) st0 = OutOfBounds \/
    exists st' recs',
      (addData ty (Some bytes) len ;;; ret tt) st0 = Done (tt, st') /\ holds st' recs').
  { intros ty bytes len st0 H0 Hty Hlen.
    destruct (addData_outcome st0 recs ty bytes len H0 Hty Hlen)
      as [(r & st' & recs' & A & Hh & _)|(A & _)].
    - right. exists st', recs'. split; [|exact Hh].
      unfold bind. rewrite A. reflexivity.
    - left. unfold bind. rewrite A. reflexivity. }
  destruct c as [ty p len|ty p len|a|f|x|]; cbn [perform valid_call] in *.
  - destruct Hc as (Hty & _ & bytes & -> & Hlen). apply Hadd; assumption.
  - right. destruct Hc as [Hinv|(bytes & -> & Hlen)].
    + exists st, recs. split; [|exact H].
      unfold bind. rewrite updateData_invalid by exact Hinv. reflexivity.
    + pose proof (updateData_holds st recs ty bytes len H Hlen) as U.
      destruct (update_records _ _ _) as [recs'|].
      * destruct U as (st' & U & Hh & _). exists st', recs'.
        split; [|exact Hh]. unfold bind. rewrite U. reflexivity.
      * exists st, recs. split; [|exact H]. unfold bind. rewrite U. reflexivity.
  - unfold addAppearance.
    change ((set_appearance (u16 a);;;
             addData APPEARANCE (Some (appearance_bytes a)) 2;;; ret tt) st)
      with ((addData APPEARANCE (Some (appearance_bytes a)) 2;;; ret tt)
              (mkGapAdvertisingData (_payload st) (_payloadLen st) (u16 a))).
    apply Hadd; [exact H|vm_compute; split; [discriminate|reflexivity]|simpl; lia].
  - unfold addFlags.
    apply Hadd; [exact H|vm_compute; split; [discriminate|reflexivity]|simpl; lia].
  - unfold addTxPower.
    apply Hadd; [exact H|vm_compute; split; [discriminate|reflexivity]|simpl; lia].
  - right. destruct (holds_clear st recs H) as (st' & C & Hh & _). eauto.
Qed.

Lemma perform_all_outcome cs : forall st recs,
  holds st recs ->
  Forall valid_call cs ->
  perform_all cs st = OutOfBounds \/
  exists st' recs', perform_all cs st = Done (tt, st') /\ holds st' recs'.
Proof.
  induction cs as [|c cs IH]; intros st recs H Hcs.
  - right. exists st, recs. split; [reflexivity|exact H].
  - inversion Hcs as [|? ? Hc Hcs']; subst. cbn [perform_all].
    destruct (perform_outcome st recs c H Hc) as [E|(st1 & recs1 & E & H1)].
    + left. unfold bind. rewrite E. reflexivity.
    + unfold bind. rewrite E. apply (IH st1 recs1 H1 Hcs').
Qed.

(** ** Failure results of [addData] *)

(** A result other than [BLE_ERROR_NONE] leaves the store as it was,
    except for the same-length overwrite, which has written the new
    value by the time it returns [BLE_ERROR_BUFFER_OVERFLOW]. *)
Lemma addData_failure st recs ty bytes len r st' :
  holds st recs ->
  0 <= ty < 256 ->
  0 <= len <= Z.of_nat (length bytes) ->
  addData ty (Some bytes) len st = Done (r, st') ->
  r <> BLE_ERROR_NONE ->
  st' = st \/
  (r = BLE_ERROR_BUFFER_OVERFLOW /\ In ty overwrite_cases /\
   exists pre v post,
     recs = pre ++ (ty, v) :: post /\ Forall (fun x => x.1 <> ty) pre /\
     len = Z.of_nat (length v) /\
     holds st' (pre ++ (ty, take (Z.to_nat len) bytes) :: post)).
Proof.
  intros H Hty Hlen Hrun Hr.
  destruct (first_of_type ty recs) as [Habs|(pre & v & post & -> & Hpre)].
  - left. pose proof (addData_new st recs ty bytes len H Habs Hty Hlen) as A.
    destruct (_payloadLen st + len + 2 >? 31).
    + rewrite A in Hrun. injection Hrun as _ <-. reflexivity.
    + destruct A as (st1 & A & _). rewrite A in Hrun.
      injection Hrun as <- _. contradiction.
  - destruct (in_dec Z.eq_dec ty overwrite_cases) as [Ho|Ho].
    + destruct (Z.eq_dec len (Z.of_nat (length v))) as [E|E].
      * right.
        destruct (addData_replace_same st pre post ty v bytes len H Hpre Ho Hlen E)
          as (st1 & A & Hh & _).
        rewrite A in Hrun. injection Hrun as <- <-.
        split; [reflexivity|]. split; [exact Ho|].
        exists pre, v, post. auto.
      * left.
        pose proof (addData_replace_resize st pre post ty v bytes len H Hpre Ho Hlen E)
          as A.
        destruct (_payloadLen st - Z.of_nat (length v) + len <=? 31).
        -- destruct A as (st1 & A & _). rewrite A in Hrun.
           injection Hrun as <- _. contradiction.
        -- rewrite A in Hrun. injection Hrun as _ <-. reflexivity.
    + left. destruct (in_dec Z.eq_dec ty append_cases) as [Ha|Ha].
      * destruct (Z_lt_le_dec (_payloadLen st + len) 31) as [Hlt|Hge].
        -- destruct (addData_merge st pre post ty v bytes len H Hpre Ha Hlen)
             as (st1 & A & _); [lia|].
           rewrite A in Hrun. injection Hrun as <- _. contradiction.
        -- destruct (Z.eq_dec (_payloadLen st + len) 31) as [E|E].
           ++ rewrite (addData_merge_outside st pre post ty v _ _ H Hpre Ha E) in Hrun.
              discriminate.
           ++ rewrite (addData_merge_nofit st pre post ty v) in Hrun
                by (try assumption; lia).
              injection Hrun as _ <-. reflexivity.
      * rewrite (addData_other st pre post ty v) in Hrun by assumption.
        injection Hrun as _ <-. reflexivity.
Qed.

(** ** The cached appearance *)

Lemma perform_appearance st recs c st' :
  holds st recs ->
  valid_call c ->
  (forall a, c <> CallAddAppearance a) ->
  perform c st = Done (tt, st') ->
  getAppearance st' = getAppearance st.
Proof.
  intros H Hc Hne Hrun. unfold getAppearance. f_equal.
  assert (Hadd : forall ty bytes len,
    0 <= ty < 256 -> 0 <= len <= Z.of_nat (length bytes) ->
    (addData ty (Some bytes) len ;;; ret tt) st = Done (tt, st') ->
    _appearance st' = _appearance st).
  { intros ty bytes len Hty Hlen Hr.
    destruct (addData_outcome st recs ty bytes len H Hty Hlen)
      as [(r & st1 & recs' & A & _ & Ha)|(A & _)];
      unfold bind in Hr; rewrite A in Hr; [|discriminate].
    injection Hr as <-. exact Ha. }
  destruct c as [ty p len|ty p len|a|f|x|]; cbn [perform valid_call] in *.
  - destruct Hc as (Hty & _ & bytes & -> & Hlen). eapply Hadd; eassumption.
  - destruct Hc as [Hinv|(bytes & -> & Hlen)].
    + unfold bind in Hrun. rewrite updateData_invalid in Hrun by exact Hinv.
      injection Hrun as <-. reflexivity.
    + pose proof (updateData_holds st recs ty bytes len H Hlen) as U.
      unfold bind in Hrun.
      destruct (update_records _ _ _) as [recs'|].
      * destruct U as (st1 & U & _ & _ & _ & Ha). rewrite U in Hrun.
        injection Hrun as <-. exact Ha.
      * rewrite U in Hrun. injection Hrun as <-. reflexivity.
  - exfalso. apply (Hne a). reflexivity.
  - unfold addFlags in Hrun.
    eapply Hadd; [| |exact Hrun]; [vm_compute; split; [discriminate|reflexivity]|simpl; lia].
  - unfold addTxPower in Hrun.
    eapply Hadd; [| |exact Hrun]; [vm_compute; split; [discriminate|reflexivity]|simpl; lia].
  - unfold clear in Hrun. injection Hrun as <-. reflexivity.
Qed.

Lemma addAppearance_outcome st recs a :
  holds st recs ->
  exists r st' recs',
    addAppearance a st = Done (r, st') /\ holds st' recs' /\
    _appearance st' = u16 a.
Proof.
  intros H. unfold addAppearance.
  set (st0 := mkGapAdvertisingData (_payload st) (_payloadLen st) (u16 a)).
  change ((set_appearance (u16 a);;;
           addData APPEARANCE (Some (appearance_bytes a)) 2) st)
    with (addData APPEARANCE (Some (appearance_bytes a)) 2 st0).
  destruct (addData_outcome st0 recs APPEARANCE (appearance_bytes a) 2)
    as [(r & st' & recs' & A & Hh & Ha)|(_ & Hin & _)].
  - exact H.
  - vm_compute. split; [discriminate|reflexivity].
  - simpl. lia.
  - exists r, st', recs'. auto.
  - exfalso. revert Hin. unfold append_cases, APPEARANCE. simpl.
    intros Hin. repeat (destruct Hin as [Hin|Hin]; [discriminate|]). destruct Hin.
Qed.

(** * The claims *)

(** C1 (code defect).  The claim: a new type overflows exactly when
    [_payloadLen + len + 2 > 31], and whenever [addData] returns a
    failure the payload and its length are unchanged.  The first half is
    [addData_new]; the second fails.  After [addTxPower(5)] the call
    [addData(TX_POWER_LEVEL, {7}, 1)] overwrites the value byte in place
    and returns [BLE_ERROR_BUFFER_OVERFLOW], the value [result] was
    initialised with, so a failure is reported for a buffer that has
    changed. *)
Theorem addData_reports_overflow_after_writing :
  exists st1 st2,
    addTxPower 5 GapAdvertisingData_new = Done (BLE_ERROR_NONE, st1) /\
    records st1 = Some [(TX_POWER_LEVEL, [5])] /\
    addData TX_POWER_LEVEL (Some [7]) 1 st1
      = Done (BLE_ERROR_BUFFER_OVERFLOW, st2) /\
    records st2 = Some [(TX_POWER_LEVEL, [7])] /\
    getPayload st2 <> getPayload st1.
Proof.
  eexists. eexists.
  split; [vm_compute; reflexivity|].
  split; [vm_compute; reflexivity|].
  split; [vm_compute; reflexivity|].
  split; [vm_compute; reflexivity|].
  vm_compute. discriminate.
Qed.

(** C2, as stated, fails: after [{1,2}] then [{3,4}] for
    [COMPLETE_LIST_16BIT_SERVICE_IDS], with a flags record added in
    between, the store does not hold the value [{1,2,3,4}]. *)
Lemma merge_value_order_counterexample :
  ~ exists st',
      (addData COMPLETE_LIST_16BIT_SERVICE_IDS (Some [1; 2]) 2 ;;;
       addFlags 6 ;;;
       addData COMPLETE_LIST_16BIT_SERVICE_IDS (Some [3; 4]) 2)
        GapAdvertisingData_new
      = Done (BLE_ERROR_NONE, st') /\
      records st'
      = Some [(COMPLETE_LIST_16BIT_SERVICE_IDS, [1; 2; 3; 4]); (FLAGS, [6])].
Proof.
  intros (st' & Hrun & Hrec). vm_compute in Hrun. injection Hrun as <-.
  vm_compute in Hrec. discriminate.
Qed.

(** C2 (amended).  For every store whose first record of an append-group
    type [ty] has value [v], [addData] of that type with [len] bytes,
    when [_payloadLen + len <= 30], returns [BLE_ERROR_NONE] and leaves
    one record in the same place whose value is the new bytes followed
    by [v]; the records before and after it are the same, in the same
    order, and [_payloadLen] has grown by [len]. *)
Theorem addData_merge_records st (pre post : list record) ty v bytes len :
  records st = Some (pre ++ (ty, v) :: post) ->
  Forall (fun r => r.1 <> ty) pre ->
  In ty append_cases ->
  0 <= len <= Z.of_nat (length bytes) ->
  getPayloadLen st + len <= 30 ->
  exists st',
    addData ty (Some bytes) len st = Done (BLE_ERROR_NONE, st') /\
    records st' = Some (pre ++ (ty, take (Z.to_nat len) bytes ++ v) :: post) /\
    getPayloadLen st' = getPayloadLen st + len.
Proof.
  intros H Hpre Hty Hlen Hfit. apply records_holds in H.
  destruct (addData_merge st pre post ty v bytes len H Hpre Hty Hlen Hfit)
    as (st' & A & Hh & Hn & _).
  exists st'. split; [exact A|]. split; [apply records_holds; exact Hh|exact Hn].
Qed.

Lemma addData_merge_records_witness :
  records ids_then_flags
    = Some ([] ++ (COMPLETE_LIST_16BIT_SERVICE_IDS, [1; 2]) :: [(FLAGS, [6])]) /\
  exists st',
    addData COMPLETE_LIST_16BIT_SERVICE_IDS (Some [3; 4]) 2 ids_then_flags
      = Done (BLE_ERROR_NONE, st') /\
    records st'
      = Some ([] ++ (COMPLETE_LIST_16BIT_SERVICE_IDS,
                     take (Z.to_nat 2) [3; 4] ++ [1; 2]) :: [(FLAGS, [6])]) /\
    getPayloadLen st' = getPayloadLen ids_then_flags + 2.
Proof.
  split; [reflexivity|].
  apply (addData_merge_records ids_then_flags []
           [(FLAGS, [6])] COMPLETE_LIST_16BIT_SERVICE_IDS [1; 2] [3; 4] 2).
  - reflexivity.
  - constructor.
  - right. left. reflexivity.
  - simpl. lia.
  - simpl. lia.
Defined.

(** C3 (code defect).  The claim: a same-length [addData] of an
    overwrite-group type overwrites the value in place, keeps
    [_payloadLen], and returns success.  The bytes and the length are as
    claimed ([addData_replace_same]); the result is not: after
    [addFlags(6)], [addTxPower(5)], the call [addTxPower(7)] returns
    [BLE_ERROR_BUFFER_OVERFLOW]. *)
Theorem addTxPower_twice_reports_overflow :
  exists st,
    (addFlags 6 ;;; addTxPower 5 ;;; addTxPower 7) GapAdvertisingData_new
      = Done (BLE_ERROR_BUFFER_OVERFLOW, st) /\
    records st = Some [(FLAGS, [6]); (TX_POWER_LEVEL, [7])] /\
    getPayloadLen st = 6.
Proof.
  eexists. split; [vm_compute; reflexivity|].
  split; vm_compute; reflexivity.
Qed.

(** C4 (code defect).  The claim: after every sequence of calls with
    valid arguments the buffer decodes into well-formed records.  Two
    valid calls leave no such state: [addData] of two bytes for
    [COMPLETE_LIST_16BIT_SERVICE_IDS] and then of 27 more pass the check
    [4 + 27 <= 31], and the shifting loop writes [_payload[31]].  Every
    sequence that does not run into this keeps the invariant
    ([perform_all_outcome]). *)
Theorem perform_all_leaves_the_array :
  Forall valid_call
    [CallAddData COMPLETE_LIST_16BIT_SERVICE_IDS (Some [1; 2]) 2;
     CallAddData COMPLETE_LIST_16BIT_SERVICE_IDS (Some (replicate 27 7)) 27] /\
  perform_all
    [CallAddData COMPLETE_LIST_16BIT_SERVICE_IDS (Some [1; 2]) 2;
     CallAddData COMPLETE_LIST_16BIT_SERVICE_IDS (Some (replicate 27 7)) 27]
    GapAdvertisingData_new
  = OutOfBounds.
Proof.
  split; [|vm_compute; reflexivity].
  repeat constructor; try (vm_compute; congruence).
  - exists [1; 2]. split; [reflexivity|]. simpl. lia.
  - exists (replicate 27 7). split; [reflexivity|]. simpl. lia.
Qed.

(** C5 (code defect).  The claim: the public const [findField]
    terminates and returns the position of the first record of the type,
    or NULL.  Its body calls the const overload, which is itself, so no
    amount of fuel lets it return.  The private overload does what the
    claim says ([findField_first], [findField_absent]). *)
Theorem findField_const_never_returns fuel ty st :
  findField_const fuel ty st = Diverges.
Proof. induction fuel as [|fuel IH]; [reflexivity|exact IH]. Qed.

(** The example stores are states the class reaches. *)
Fact ids_only_reached :
  addData COMPLETE_LIST_16BIT_SERVICE_IDS (Some [1; 2]) 2 GapAdvertisingData_new
  = Done (BLE_ERROR_NONE, ids_only).
Proof. vm_compute. reflexivity. Qed.

Fact ids_then_flags_reached :
  (addData COMPLETE_LIST_16BIT_SERVICE_IDS (Some [1; 2]) 2 ;;; addFlags 6)
    GapAdvertisingData_new
  = Done (BLE_ERROR_NONE, ids_then_flags).
Proof. vm_compute. reflexivity. Qed.

Fact data_flags_power_reached :
  (addData SERVICE_DATA (Some [1; 2; 3]) 3 ;;; addFlags 6 ;;; addTxPower 7)
    GapAdvertisingData_new
  = Done (BLE_ERROR_NONE, data_flags_power).
Proof. vm_compute. reflexivity. Qed.

Fact nearly_full_reached :
  addData MANUFACTURER_SPECIFIC_DATA (Some (replicate 27 1)) 27
    GapAdvertisingData_new
  = Done (BLE_ERROR_NONE, nearly_full).
Proof. vm_compute. reflexivity. Qed.

(** The capacity boundary: with 29 bytes taken, a record with a two-byte
    value is refused and nothing changes, and a record with an empty
    value, which needs exactly the two bytes left, brings the length to
    31. *)
Fact overflow_boundary :
  addData SERVICE_DATA (Some [1; 2]) 2 nearly_full
    = Done (BLE_ERROR_BUFFER_OVERFLOW, nearly_full) /\
  exists st,
    addData SERVICE_DATA (Some []) 0 nearly_full = Done (BLE_ERROR_NONE, st) /\
    getPayloadLen st = 31 /\
    records st
      = Some [(MANUFACTURER_SPECIFIC_DATA, replicate 27 1); (SERVICE_DATA, [])].
Proof.
  split; [vm_compute; reflexivity|].
  eexists. split; [vm_compute; reflexivity|]. split; vm_compute; reflexivity.
Qed.

(** C6, as stated, fails: after [addFlags(0x02)], [addAppearance(512)],
    [addTxPower(-20)] on a new object the payload length is not 9. *)
Lemma scenario_length_counterexample :
  ~ exists r st,
      (addFlags 2 ;;; addAppearance 512 ;;; addTxPower (-20))
        GapAdvertisingData_new = Done (r, st) /\
      getPayloadLen st = 9.
Proof.
  intros (r & st & Hrun & Hlen). vm_compute in Hrun.
  injection Hrun as _ <-. vm_compute in Hlen. discriminate.
Qed.

(** C6 (amended).  Starting from a new object, [addFlags(0x02)],
    [addAppearance(512)], [addTxPower(-20)] all succeed and give a
    payload length of 10 (3 + 4 + 3), a cached appearance of 512, and
    [findField] finds the three types, at offsets 0, 3 and 7. *)
Theorem scenario_end_to_end :
  exists st,
    (addFlags 2 ;;; addAppearance 512 ;;; addTxPower (-20))
      GapAdvertisingData_new = Done (BLE_ERROR_NONE, st) /\
    getPayloadLen st = 10 /\
    getAppearance st = 512 /\
    records st
      = Some [(FLAGS, [2]); (APPEARANCE, [0; 2]); (TX_POWER_LEVEL, [236])] /\
    findField FLAGS st = Done (Some 0, st) /\
    findField APPEARANCE st = Done (Some 3, st) /\
    findField TX_POWER_LEVEL st = Done (Some 7, st).
Proof.
  eexists. split; [vm_compute; reflexivity|].
  repeat split; vm_compute; reflexivity.
Qed.

(** C7.  On a store that holds records, [updateData] returns
    [BLE_ERROR_INVALID_PARAM] for a null pointer or a zero length and
    changes nothing.  Otherwise, if [recs] has a first record of type
    [ty] whose value is [len] bytes long, it returns [BLE_ERROR_NONE]
    and exactly that record's value becomes the new bytes: the other
    records, [_payloadLen], the bytes beyond it and the cached
    appearance are as before.  If no record has that type and length it
    returns [BLE_ERROR_UNSPECIFIED] (the result the specification calls
    field-not-found) and changes nothing. *)
Theorem updateData_spec st (recs : list record) ty :
  records st = Some recs ->
  (forall len, updateData ty None len st = Done (BLE_ERROR_INVALID_PARAM, st)) /\
  (forall payload, updateData ty payload 0 st = Done (BLE_ERROR_INVALID_PARAM, st)) /\
  (forall bytes len,
     0 < len <= Z.of_nat (length bytes) ->
     (forall (pre post : list record) v,
        recs = pre ++ (ty, v) :: post ->
        Z.of_nat (length v) = len ->
        Forall (fun r => ~ (r.1 = ty /\ Z.of_nat (length r.2) = len)) pre ->
        exists st',
          updateData ty (Some bytes) len st = Done (BLE_ERROR_NONE, st') /\
          records st' = Some (pre ++ (ty, take (Z.to_nat len) bytes) :: post) /\
          getPayloadLen st' = getPayloadLen st /\
          drop (Z.to_nat (getPayloadLen st)) (getPayload st')
            = drop (Z.to_nat (getPayloadLen st)) (getPayload st) /\
          getAppearance st' = getAppearance st) /\
     (Forall (fun r => ~ (r.1 = ty /\ Z.of_nat (length r.2) = len)) recs ->
      updateData ty (Some bytes) len st = Done (BLE_ERROR_UNSPECIFIED, st))).
Proof.
  intros H. apply records_holds in H.
  split; [intros len; apply updateData_invalid; left; reflexivity|].
  split; [intros payload; apply updateData_invalid; right; reflexivity|].
  intros bytes len Hlen.
  pose proof (updateData_holds st recs ty bytes len H Hlen) as U.
  assert (Hw : Z.of_nat (length (take (Z.to_nat len) bytes)) = len)
    by (rewrite length_take; lia).
  split.
  - intros pre post v -> Hv Hpre.
    rewrite (update_records_first ty _ pre post v) in U.
    + destruct U as (st' & U & Hh & Hn & Hd & Ha).
      exists st'. split; [exact U|]. split; [apply records_holds; exact Hh|].
      split; [exact Hn|]. split; [exact Hd|].
      unfold getAppearance. rewrite Ha. reflexivity.
    + eapply Forall_impl; [exact Hpre|]. intros r Hr [E1 E2]. apply Hr.
      split; [exact E1|lia].
    + lia.
  - intros Hnone. rewrite update_records_none in U; [exact U|].
    eapply Forall_impl; [exact Hnone|]. intros r Hr [E1 E2]. apply Hr.
    split; [exact E1|lia].
Qed.

Lemma updateData_spec_witness :
  records data_flags_power
    = Some [(SERVICE_DATA, [1; 2; 3]); (FLAGS, [6]); (TX_POWER_LEVEL, [7])] /\
  (exists st',
     updateData FLAGS (Some [9]) 1 data_flags_power = Done (BLE_ERROR_NONE, st') /\
     records st'
       = Some [(SERVICE_DATA, [1; 2; 3]); (FLAGS, [9]); (TX_POWER_LEVEL, [7])]) /\
  updateData FLAGS (Some [9; 9]) 2 data_flags_power
    = Done (BLE_ERROR_UNSPECIFIED, data_flags_power).
Proof.
  split; [reflexivity|].
  destruct (updateData_spec data_flags_power
              [(SERVICE_DATA, [1; 2; 3]); (FLAGS, [6]); (TX_POWER_LEVEL, [7])]
              FLAGS eq_refl) as (_ & _ & U).
  split.
  - destruct (U [9] 1) as [Ufound _]; [simpl; lia|].
    destruct (Ufound [(SERVICE_DATA, [1; 2; 3])] [(TX_POWER_LEVEL, [7])] [6])
      as (st' & Hrun & Hrec & _).
    + reflexivity.
    + reflexivity.
    + repeat constructor. intros [E _]. discriminate E.
    + exists st'. split; [exact Hrun|exact Hrec].
  - destruct (U [9; 9] 2) as [_ Unone]; [simpl; lia|].
    apply Unone.
    repeat constructor; intros [E1 E2];
      first [discriminate E1 | vm_compute in E2; discriminate E2].
Defined.

(** C8.  For every store whose first record of an overwrite-group type
    [ty] has a value of a length other than [len], [addData] of that
    type with [len] bytes, when [_payloadLen - oldLength + len <= 31],
    returns [BLE_ERROR_NONE]; [_payloadLen] changes by exactly
    [len - oldLength]; the other records keep their bytes and their
    order, and the new record comes last. *)
Theorem addData_resize_records st (pre post : list record) ty v bytes len :
  records st = Some (pre ++ (ty, v) :: post) ->
  Forall (fun r => r.1 <> ty) pre ->
  In ty overwrite_cases ->
  0 <= len <= Z.of_nat (length bytes) ->
  len <> Z.of_nat (length v) ->
  getPayloadLen st - Z.of_nat (length v) + len <= 31 ->
  exists st',
    addData ty (Some bytes) len st = Done (BLE_ERROR_NONE, st') /\
    records st' = Some (pre ++ post ++ [(ty, take (Z.to_nat len) bytes)]) /\
    getPayloadLen st' = getPayloadLen st + (len - Z.of_nat (length v)).
Proof.
  intros H Hpre Hty Hlen Hne Hfit. apply records_holds in H.
  pose proof (addData_replace_resize st pre post ty v bytes len H Hpre Hty Hlen Hne)
    as A.
  unfold getPayloadLen in *.
  rewrite (proj2 (Z.leb_le _ _) Hfit) in A.
  destruct A as (st' & A & Hh & Hn & _).
  exists st'. split; [exact A|]. split; [apply records_holds; exact Hh|exact Hn].
Qed.

Lemma addData_resize_records_witness :
  records data_flags_power
    = Some ([] ++ (SERVICE_DATA, [1; 2; 3])
               :: [(FLAGS, [6]); (TX_POWER_LEVEL, [7])]) /\
  exists st',
    addData SERVICE_DATA (Some [9]) 1 data_flags_power
      = Done (BLE_ERROR_NONE, st') /\
    records st'
      = Some ([] ++ [(FLAGS, [6]); (TX_POWER_LEVEL, [7])]
                 ++ [(SERVICE_DATA, take (Z.to_nat 1) [9])]) /\
    getPayloadLen st'
      = getPayloadLen data_flags_power + (1 - Z.of_nat (length [1; 2; 3])).
Proof.
  split; [reflexivity|].
  apply (addData_resize_records data_flags_power []
           [(FLAGS, [6]); (TX_POWER_LEVEL, [7])] SERVICE_DATA [1; 2; 3] [9] 1).
  - reflexivity.
  - constructor.
  - do 6 right. left. reflexivity.
  - simpl. lia.
  - simpl. lia.
  - simpl. lia.
Defined.

(** C9 (code defect).  The claim: when the append-group merge passes
    its check [_payloadLen + len <= 31], every access of the shifting
    loop and of the copy is at an index in 0..30.  With the store after
    [addData(COMPLETE_LIST_16BIT_SERVICE_IDS, {1,2}, 2)] and 27 more
    bytes the check passes (4 + 27 = 31), the first iteration reads
    [_payload[4]] and writes [_payload[31]]: outside the array. *)
Theorem addData_merge_writes_past_the_array :
  (getPayloadLen ids_only + 27 <=? GAP_ADVERTISING_DATA_MAX_PAYLOAD) = true /\
  findField COMPLETE_LIST_16BIT_SERVICE_IDS ids_only = Done (Some 0, ids_only) /\
  load (getPayloadLen ids_only) ids_only = Done (0, ids_only) /\
  store (getPayloadLen ids_only + 27) 0 ids_only = OutOfBounds /\
  shift_loop 256 0 27 (getPayloadLen ids_only) ids_only = OutOfBounds /\
  addData COMPLETE_LIST_16BIT_SERVICE_IDS (Some (replicate 27 7)) 27 ids_only
    = OutOfBounds.
Proof. repeat split; vm_compute; reflexivity. Qed.

Lemma perform_all_appearance cs : forall st recs x st',
  holds st recs ->
  Forall valid_call cs ->
  getAppearance st = u16 x ->
  perform_all cs st = Done (tt, st') ->
  getAppearance st' = u16 (last_appearance cs x).
Proof.
  induction cs as [|c cs IH]; intros st recs x st' H Hcs Hx Hrun.
  - injection Hrun as <-. exact Hx.
  - inversion Hcs as [|? ? Hc Hcs']; subst. cbn [perform_all] in Hrun.
    unfold bind in Hrun.
    destruct (perform_outcome st recs c H Hc) as [E|(st1 & recs1 & E & H1)];
      rewrite E in Hrun; [discriminate|].
    destruct c as [ty p len|ty p len|a|f|y|];
      try (cbn [last_appearance]; apply (IH st1 recs1 x st' H1 Hcs'); [|exact Hrun];
           rewrite <- Hx;
           apply (perform_appearance st recs _ st1 H Hc); [discriminate|exact E]).
    cbn [last_appearance]. apply (IH st1 recs1 a st' H1 Hcs'); [|exact Hrun].
    cbn [perform] in E. unfold bind in E.
    destruct (addAppearance_outcome st recs a H) as (r & st2 & _ & A & _ & Ha).
    rewrite A in E. injection E as <-.
    unfold getAppearance. rewrite Ha. unfold u16. apply Z.mod_mod. lia.
Qed.

(** C10.  [getAppearance] returns, as a [uint16_t], the argument of the
    most recent [addAppearance] call of any sequence of valid calls on a
    new object, and [GENERIC_TAG], which is 512 and not 0, when there
    was none.  [addAppearance] stores its argument before it calls
    [addData], so this is so whatever [addData] returns: on a store with
    29 bytes taken [addAppearance(1234)] returns
    [BLE_ERROR_BUFFER_OVERFLOW], the buffer has no appearance record,
    and [getAppearance] returns 1234. *)
Theorem getAppearance_is_the_last_argument :
  (GENERIC_TAG = 512 /\ getAppearance GapAdvertisingData_new = GENERIC_TAG /\
   getAppearance GapAdvertisingData_new <> 0) /\
  (forall cs st',
     Forall valid_call cs ->
     perform_all cs GapAdvertisingData_new = Done (tt, st') ->
     getAppearance st' = u16 (last_appearance cs GENERIC_TAG)) /\
  (forall st recs a,
     records st = Some recs ->
     exists r st',
       addAppearance a st = Done (r, st') /\ getAppearance st' = u16 a) /\
  (exists st',
     addAppearance 1234 nearly_full = Done (BLE_ERROR_BUFFER_OVERFLOW, st') /\
     getAppearance st' = 1234 /\
     findField APPEARANCE st' = Done (None, st')).
Proof.
  split; [repeat split; vm_compute; congruence|].
  split; [|split].
  - intros cs st' Hcs Hrun.
    apply (perform_all_appearance cs GapAdvertisingData_new [] GENERIC_TAG st'
             holds_new Hcs); [reflexivity|exact Hrun].
  - intros st recs a H. apply records_holds in H.
    destruct (addAppearance_outcome st recs a H) as (r & st' & _ & A & _ & Ha).
    exists r, st'. split; [exact A|].
    unfold getAppearance. rewrite Ha. unfold u16. apply Z.mod_mod. lia.
  - eexists. split; [vm_compute; reflexivity|]. split; vm_compute; reflexivity.
Qed.

Lemma getAppearance_is_the_last_argument_witness :
  Forall valid_call
    [CallAddData MANUFACTURER_SPECIFIC_DATA (Some (replicate 27 1)) 27;
     CallAddAppearance 1234; CallAddFlags 6] /\
  (exists st',
     perform_all
       [CallAddData MANUFACTURER_SPECIFIC_DATA (Some (replicate 27 1)) 27;
        CallAddAppearance 1234; CallAddFlags 6]
       GapAdvertisingData_new = Done (tt, st') /\
     getAppearance st' = 1234) /\
  records nearly_full = Some [(MANUFACTURER_SPECIFIC_DATA, replicate 27 1)] /\
  (exists r st',
     addAppearance 1234 nearly_full = Done (r, st') /\
     getAppearance st' = u16 1234).
Proof.
  destruct getAppearance_is_the_last_argument as (_ & Hseq & Hone & _).
  assert (Hvalid : Forall valid_call
    [CallAddData MANUFACTURER_SPECIFIC_DATA (Some (replicate 27 1)) 27;
     CallAddAppearance 1234; CallAddFlags 6]).
  { repeat constructor; try (vm_compute; congruence).
    exists (replicate 27 1). split; [reflexivity|]. simpl. lia. }
  split; [exact Hvalid|]. split; [|split].
  - eexists. split; [vm_compute; reflexivity|].
    apply (Hseq _ _ Hvalid). vm_compute. reflexivity.
  - reflexivity.
  - apply (Hone nearly_full [(MANUFACTURER_SPECIFIC_DATA, replicate 27 1)] 1234).
    reflexivity.
Defined.

(** * Further properties of the payload store *)

(** ** [addData] acts on the records as [addData_records] *)

Lemma split_first_none ty (recs : list record) :
  split_first ty recs = None -> Forall (fun r => r.1 <> ty) recs.
Proof.
  induction recs as [|[t u] recs IH]; intros H; [constructor|].
  cbn [split_first fst snd] in H. destruct (t =? ty) eqn:E; [discriminate|].
  destruct (split_first ty recs) as [[[? ?] ?]|]; [discriminate|].
  constructor; [apply Z.eqb_neq; exact E|apply IH; reflexivity].
Qed.

Lemma split_first_some ty (recs pre post : list record) v :
  split_first ty recs = Some (pre, v, post) ->
  recs = pre ++ (ty, v) :: post /\ Forall (fun r => r.1 <> ty) pre.
Proof.
  revert pre. induction recs as [|[t u] recs IH]; intros pre H; [discriminate|].
  cbn [split_first fst snd] in H. destruct (t =? ty) eqn:E.
  - apply Z.eqb_eq in E. injection H as <- <- <-. subst t.
    split; [reflexivity|constructor].
  - destruct (split_first ty recs) as [[[pre' v'] post']|]; [|discriminate].
    injection H as <- <- <-. destruct (IH pre' eq_refl) as [-> Hpre].
    split; [reflexivity|]. constructor; [apply Z.eqb_neq; exact E|exact Hpre].
Qed.

Lemma split_first_app ty (pre post : list record) v :
  Forall (fun r => r.1 <> ty) pre ->
  split_first ty (pre ++ (ty, v) :: post) = Some (pre, v, post).
Proof.
  intros Hpre. induction pre as [|[t u] pre IH]; cbn [app split_first fst snd].
  - rewrite Z.eqb_refl. reflexivity.
  - inversion Hpre as [|? ? Hr Hpre']; subst. cbn [fst] in Hr.
    rewrite (proj2 (Z.eqb_neq _ _) Hr), (IH Hpre'). reflexivity.
Qed.

Lemma addData_simulates st (recs : list record) ty bytes len :
  holds st recs ->
  0 <= ty < 256 ->
  0 <= len <= Z.of_nat (length bytes) ->
  match addData_records ty (take (Z.to_nat len) bytes) recs with
  | Unchanged r => addData ty (Some bytes) len st = Done (r, st)
  | Changed r recs' =>
      exists st',
        addData ty (Some bytes) len st = Done (r, st') /\
        holds st' recs' /\ _appearance st' = _appearance st
  | Outside => addData ty (Some bytes) len st = OutOfBounds
  end.
Proof.
  intros H Hty Hlen.
  destruct (holds_split _ _ H) as (_ & Hn & _).
  destruct (arg_split bytes len Hlen) as (_ & Hw).
  unfold addData_records. rewrite Hw, <- Hn.
  destruct (split_first ty recs) as [[[pre v] post]|] eqn:Es.
  - destruct (split_first_some _ _ _ _ _ Es) as [-> Hpre].
    destruct (is_case overwrite_cases ty) eqn:Eo.
    + apply is_case_In in Eo. destruct (len =? Z.of_nat (length v)) eqn:El.
      * apply Z.eqb_eq in El.
        destruct (addData_replace_same st pre post ty v bytes len H Hpre Eo Hlen El)
          as (st' & A & Hh & _ & _ & Ha).
        exists st'. auto.
      * apply Z.eqb_neq in El.
        pose proof (addData_replace_resize st pre post ty v bytes len H Hpre Eo Hlen El)
          as A.
        destruct (_payloadLen st - Z.of_nat (length v) + len <=? 31).
        -- destruct A as (st' & A & Hh & _ & Ha). exists st'. auto.
        -- exact A.
    + destruct (is_case append_cases ty) eqn:Ea.
      * apply is_case_In in Ea.
        destruct (_payloadLen st + len <=? 31) eqn:Ef.
        -- apply Z.leb_le in Ef. destruct (_payloadLen st + len =? 31) eqn:E31.
           ++ apply Z.eqb_eq in E31.
              apply (addData_merge_outside st pre post ty v); assumption.
           ++ apply Z.eqb_neq in E31.
              destruct (addData_merge st pre post ty v bytes len H Hpre Ea Hlen)
                as (st' & A & Hh & _ & Happ); [lia|].
              exists st'. auto.
        -- apply Z.leb_gt in Ef.
           apply (addData_merge_nofit st pre post ty v); try assumption. lia.
      * apply (addData_other st pre post ty v); try assumption.
        -- intros Hin. apply is_case_In in Hin. congruence.
        -- intros Hin. apply is_case_In in Hin. congruence.
  - pose proof (addData_new st recs ty bytes len H (split_first_none _ _ Es) Hty Hlen)
      as A.
    destruct (_payloadLen st + len + 2 >? 31).
    + exact A.
    + destruct A as (st' & A & Hh & _ & Ha). exists st'. auto.
Qed.

(** ** What [addData_records] does to a list of records *)




Lemma absent_not_elem ty (recs : list record) :
  Forall (fun r => r.1 <> ty) recs <-> ty ∉ recs.*1.
Proof.
  rewrite Forall_forall. split.
  - intros H Hin. apply list_elem_of_fmap in Hin as (r & -> & Hr).
    exact (H r Hr eq_refl).
  - intros H r Hr E. apply H. apply list_elem_of_fmap. exists r.
    split; [symmetry; exact E|exact Hr].
Qed.

Lemma addData_records_distinct ty w (recs recs' : list record) r :
  addData_records ty w recs = Changed r recs' ->
  NoDup recs.*1 -> NoDup recs'.*1.
Proof.
  unfold addData_records.
  destruct (split_first ty recs) as [[[pre v] post]|] eqn:Es.
  - destruct (split_first_some _ _ _ _ _ Es) as [-> _].
    repeat match goal with
           | |- context [if ?b then _ else _] => destruct b
           end; intros H; try discriminate; injection H as _ <-;
      rewrite ?fmap_app, ?fmap_cons, ?fmap_app; cbn [fst fmap list_fmap];
      try (intros Hd; exact Hd).
    intros Hd. rewrite <- Permutation_cons_append. exact Hd.
  - apply split_first_none, absent_not_elem in Es.
    destruct (_ >? _); intros H; [discriminate|]. injection H as _ <-.
    intros Hd. rewrite fmap_app. cbn [fmap list_fmap fst].
    rewrite <- Permutation_cons_append. apply NoDup_cons. split; assumption.
Qed.

Lemma addData_records_found ty w (recs recs' : list record) :
  addData_records ty w recs = Changed BLE_ERROR_NONE recs' ->
  NoDup recs.*1 ->
  exists pre' rest post',
    recs' = pre' ++ (ty, w ++ rest) :: post' /\
    Forall (fun r => r.1 <> ty) pre' /\
    (~ In ty append_cases -> rest = []).
Proof.
  unfold addData_records.
  destruct (split_first ty recs) as [[[pre v] post]|] eqn:Es.
  - destruct (split_first_some _ _ _ _ _ Es) as [-> Hpre].
    destruct (is_case overwrite_cases ty) eqn:Eo.
    + destruct (_ =? _); [discriminate|].
      destruct (_ <=? _); intros H; [|discriminate]. injection H as <-.
      intros Hd. exists (pre ++ post), [], [].
      rewrite app_nil_r, <- app_assoc. split; [reflexivity|]. split; [|reflexivity].
      apply Forall_app. split; [exact Hpre|].
      apply absent_not_elem.
      rewrite fmap_app, fmap_cons in Hd. cbn [fst] in Hd.
      apply NoDup_app in Hd as (_ & _ & Hd). apply NoDup_cons in Hd as [Hd _].
      exact Hd.
    + destruct (is_case append_cases ty) eqn:Ea; [|discriminate].
      destruct (_ <=? _); [|discriminate].
      destruct (_ =? _); intros H; [discriminate|]. injection H as <-.
      intros _. exists pre, v, post. split; [reflexivity|]. split; [exact Hpre|].
      intros Hn. exfalso. apply Hn. apply is_case_In. exact Ea.
  - apply split_first_none in Es.
    destruct (_ >? _); intros H; [discriminate|]. injection H as <-.
    intros _. exists recs, [], []. rewrite app_nil_r. auto.
Qed.

Lemma addData_records_outside ty w (recs : list record) :
  addData_records ty w recs = Outside <->
  In ty append_cases /\ Exists (fun r => r.1 = ty) recs /\
  occupied recs + Z.of_nat (length w) = 31.
Proof.
  unfold addData_records. split.
  - destruct (split_first ty recs) as [[[pre v] post]|] eqn:Es.
    + destruct (split_first_some _ _ _ _ _ Es) as [-> _].
      destruct (is_case overwrite_cases ty).
      { destruct (_ =? _); [discriminate|]. destruct (_ <=? _); discriminate. }
      destruct (is_case append_cases ty) eqn:Ea; [|discriminate].
      destruct (_ <=? _); [|discriminate].
      destruct (_ =? 31) eqn:E31; [|discriminate]. intros _.
      split; [apply is_case_In; exact Ea|]. split; [|apply Z.eqb_eq; exact E31].
      apply Exists_app. right. apply Exists_cons_hd. reflexivity.
    + destruct (_ >? _); discriminate.
  - intros (Ha & Hex & H31).
    destruct (split_first ty recs) as [[[pre v] post]|] eqn:Es.
    + rewrite (append_case_not_overwrite _ Ha), (proj2 (is_case_In _ _) Ha).
      rewrite (proj2 (Z.leb_le _ _)) by lia.
      rewrite (proj2 (Z.eqb_eq _ _) H31). reflexivity.
    + exfalso. apply split_first_none in Es.
      apply Exists_exists in Hex as (r & Hr & E).
      rewrite Forall_forall in Es. exact (Es r Hr E).
Qed.



Lemma update_records_types ty w (recs recs' : list record) :
  update_records ty w recs = Some recs' -> recs'.*1 = recs.*1.
Proof.
  revert recs'. induction recs as [|[t u] recs IH]; intros recs' H; [discriminate|].
  cbn [update_records fst snd] in H. destruct (_ && _) eqn:B.
  - injection H as <-. apply andb_true_iff in B as [_ B]. apply Z.eqb_eq in B.
    subst t. reflexivity.
  - destruct (update_records ty w recs) as [r''|]; [|discriminate].
    injection H as <-. cbn [fmap list_fmap fst]. f_equal. apply IH. reflexivity.
Qed.

(** ** One call, on a store with pairwise distinct types *)

Lemma addData_step_distinct st (recs : list record) ty bytes len st' :
  holds st recs ->
  NoDup recs.*1 ->
  0 <= ty < 256 ->
  0 <= len <= Z.of_nat (length bytes) ->
  (addData ty (Some bytes) len ;;; ret tt) st = Done (tt, st') ->
  exists recs', holds st' recs' /\ NoDup recs'.*1.
Proof.
  intros H Hd Hty Hlen Hrun. unfold bind in Hrun.
  pose proof (addData_simulates st recs ty bytes len H Hty Hlen) as A.
  destruct (addData_records ty _ recs) as [r|r recs'|] eqn:E.
  - rewrite A in Hrun. injection Hrun as <-. eauto.
  - destruct A as (st1 & A & Hh & _). rewrite A in Hrun. injection Hrun as <-.
    exists recs'. split; [exact Hh|]. exact (addData_records_distinct _ _ _ _ _ E Hd).
  - rewrite A in Hrun. discriminate.
Qed.

Lemma perform_distinct st (recs : list record) c st' :
  holds st recs ->
  NoDup recs.*1 ->
  valid_call c ->
  perform c st = Done (tt, st') ->
  exists recs', holds st' recs' /\ NoDup recs'.*1.
Proof.
  intros H Hd Hc Hrun.
  destruct c as [ty p len|ty p len|a|f|x|]; cbn [perform valid_call] in *.
  - destruct Hc as (Hty & _ & bytes & -> & Hlen).
    exact (addData_step_distinct st recs ty bytes len st' H Hd Hty Hlen Hrun).
  - unfold bind in Hrun. destruct Hc as [Hinv|(bytes & -> & Hlen)].
    + rewrite updateData_invalid in Hrun by exact Hinv.
      injection Hrun as <-. eauto.
    + pose proof (updateData_holds st recs ty bytes len H Hlen) as U.
      destruct (update_records _ _ _) as [recs'|] eqn:E.
      * destruct U as (st1 & U & Hh & _). rewrite U in Hrun. injection Hrun as <-.
        exists recs'. split; [exact Hh|].
        rewrite (update_records_types _ _ _ _ E). exact Hd.
      * rewrite U in Hrun. injection Hrun as <-. eauto.
  - apply (addData_step_distinct
             (mkGapAdvertisingData (_payload st) (_payloadLen st) (u16 a))
             recs APPEARANCE (appearance_bytes a) 2 st' H Hd);
      [vm_compute; split; [discriminate|reflexivity]|simpl; lia|exact Hrun].
  - apply (addData_step_distinct st recs FLAGS [u8 f] 1 st' H Hd);
      [vm_compute; split; [discriminate|reflexivity]|simpl; lia|exact Hrun].
  - apply (addData_step_distinct st recs TX_POWER_LEVEL [u8 x] 1 st' H Hd);
      [vm_compute; split; [discriminate|reflexivity]|simpl; lia|exact Hrun].
  - destruct (holds_clear st recs H) as (st1 & C & Hh & _).
    rewrite C in Hrun. injection Hrun as <-. exists []. split; [exact Hh|].
    constructor.
Qed.

(** A call leaves the array only as an [addData] of an append-group
    type that fills it exactly. *)
Lemma perform_outside st (recs : list record) c :
  holds st recs ->
  valid_call c ->
  perform c st = OutOfBounds ->
  exists ty p len,
    c = CallAddData ty p len /\ In ty append_cases /\ _payloadLen st + len = 31.
Proof.
  intros H Hc Hrun.
  assert (Hadd : forall ty bytes len st0,
    holds st0 recs -> 0 <= ty < 256 -> 0 <= len <= Z.of_nat (length bytes) ->
    (addData ty (Some bytes) len ;;; ret tt) st0 = OutOfBounds ->
    In ty append_cases /\ _payloadLen st0 + len = 31).
  { intros ty bytes len st0 H0 Hty Hlen Hr. unfold bind in Hr.
    destruct (addData_outcome st0 recs ty bytes len H0 Hty Hlen)
      as [(r & st1 & recs' & A & _)|(_ & Hin & H31)]; [|auto].
    rewrite A in Hr. discriminate. }
  assert (Hno : forall t, 0 <= t < 256 -> is_case append_cases t = false ->
    forall bytes len st0, holds st0 recs -> 0 <= len <= Z.of_nat (length bytes) ->
    (addData t (Some bytes) len ;;; ret tt) st0 <> OutOfBounds).
  { intros t Ht Hcase bytes len st0 H0 Hlen Hr.
    destruct (Hadd t bytes len st0 H0 Ht Hlen Hr) as [Hin _].
    apply is_case_In in Hin. congruence. }
  destruct c as [ty p len|ty p len|a|f|x|]; cbn [perform valid_call] in *.
  - destruct Hc as (Hty & _ & bytes & -> & Hlen).
    destruct (Hadd ty bytes len st H Hty Hlen Hrun) as [Hin H31].
    exists ty, (Some bytes), len. auto.
  - exfalso. unfold bind in Hrun. destruct Hc as [Hinv|(bytes & -> & Hlen)].
    + rewrite updateData_invalid in Hrun by exact Hinv. discriminate.
    + pose proof (updateData_holds st recs ty bytes len H Hlen) as U.
      destruct (update_records _ _ _).
      * destruct U as (st1 & U & _). rewrite U in Hrun. discriminate.
      * rewrite U in Hrun. discriminate.
  - exfalso.
    apply (Hno APPEARANCE ltac:(vm_compute; split; [discriminate|reflexivity])
             eq_refl (appearance_bytes a) 2
             (mkGapAdvertisingData (_payload st) (_payloadLen st) (u16 a)) H);
      [simpl; lia|exact Hrun].
  - exfalso.
    apply (Hno FLAGS ltac:(vm_compute; split; [discriminate|reflexivity])
             eq_refl [u8 f] 1 st H); [simpl; lia|exact Hrun].
  - exfalso.
    apply (Hno TX_POWER_LEVEL ltac:(vm_compute; split; [discriminate|reflexivity])
             eq_refl [u8 x] 1 st H); [simpl; lia|exact Hrun].
  - discriminate.
Qed.

Lemma enumerator_in_a_group t :
  In t DataType_enumerators -> In t overwrite_cases \/ In t append_cases.
Proof.
  unfold DataType_enumerators. cbn [In]. intros H.
  repeat (destruct H as [<-|H];
          [first [left; apply is_case_In; reflexivity
                 |right; apply is_case_In; reflexivity]|]).
  destruct H.
Qed.

Lemma addData_records_not_implemented ty w (recs : list record) :
  (addData_records ty w recs = Unchanged BLE_ERROR_NOT_IMPLEMENTED <->
   Exists (fun r => r.1 = ty) recs /\
   ~ In ty overwrite_cases /\ ~ In ty append_cases) /\
  (forall recs', addData_records ty w recs <> Changed BLE_ERROR_NOT_IMPLEMENTED recs').
Proof.
  unfold addData_records.
  destruct (split_first ty recs) as [[[pre v] post]|] eqn:Es.
  - destruct (split_first_some _ _ _ _ _ Es) as [-> _].
    assert (Hex : Exists (fun r => r.1 = ty) (pre ++ (ty, v) :: post))
      by (apply Exists_app; right; apply Exists_cons_hd; reflexivity).
    destruct (is_case overwrite_cases ty) eqn:Eo.
    + split.
      * split.
        -- destruct (_ =? _); [discriminate|]. destruct (_ <=? _); discriminate.
        -- intros (_ & Hn & _). exfalso. apply Hn, is_case_In, Eo.
      * intros recs'. destruct (_ =? _); [discriminate|].
        destruct (_ <=? _); discriminate.
    + destruct (is_case append_cases ty) eqn:Ea.
      * split.
        -- split.
           ++ destruct (_ <=? _); [|discriminate]. destruct (_ =? _); discriminate.
           ++ intros (_ & _ & Hn). exfalso. apply Hn, is_case_In, Ea.
        -- intros recs'. destruct (_ <=? _); [|discriminate].
           destruct (_ =? _); discriminate.
      * split; [|discriminate]. split; [|reflexivity]. intros _.
        split; [exact Hex|].
        split; intros Hin; apply is_case_In in Hin; congruence.
  - apply split_first_none in Es. split.
    + split.
      * destruct (_ >? _); discriminate.
      * intros (Hex & _). exfalso.
        apply Exists_exists in Hex as (r & Hr & E).
        rewrite Forall_forall in Es. exact (Es r Hr E).
    + intros recs'. destruct (_ >? _); discriminate.
Qed.

(** Two stores that hold the same records and agree beyond them are the
    same store. *)
Lemma store_ext st1 st2 (recs : list record) :
  holds st1 recs ->
  holds st2 recs ->
  drop (Z.to_nat (_payloadLen st1)) (_payload st1)
    = drop (Z.to_nat (_payloadLen st1)) (_payload st2) ->
  _appearance st1 = _appearance st2 ->
  st1 = st2.
Proof.
  intros H1 H2 Hd Ha.
  destruct (holds_split _ _ H1) as (Hp1 & Hn1 & _).
  destruct (holds_split _ _ H2) as (Hp2 & Hn2 & _).
  destruct st1 as [p1 n1 a1], st2 as [p2 n2 a2]. cbn in *. subst n1 n2 a1.
  f_equal. rewrite Hp1, Hp2, Hd. reflexivity.
Qed.

(** ** Further properties of [addData] *)

(** X1.  On every store that decodes into records, [addData] does to
    them what [addData_records] computes: it returns the same result and
    leaves the store as it was, or leaves a store that decodes into the
    new records and has the same cached appearance, or, where
    [addData_records] says so, it accesses [_payload] outside its
    bounds. *)
Theorem addData_acts_on_records st (recs : list record) ty bytes len :
  records st = Some recs ->
  0 <= ty < 256 ->
  0 <= len <= Z.of_nat (length bytes) ->
  match addData_records ty (take (Z.to_nat len) bytes) recs with
  | Unchanged r => addData ty (Some bytes) len st = Done (r, st)
  | Changed r recs' =>
      exists st',
        addData ty (Some bytes) len st = Done (r, st') /\
        records st' = Some recs' /\
        getPayloadLen st' = occupied recs' /\
        getAppearance st' = getAppearance st
  | Outside => addData ty (Some bytes) len st = OutOfBounds
  end.
Proof.
  intros H Hty Hlen. apply records_holds in H.
  pose proof (addData_simulates st recs ty bytes len H Hty Hlen) as A.
  destruct (addData_records ty _ recs) as [r|r recs'|]; [exact A| |exact A].
  destruct A as (st' & A & Hh & Ha). exists st'.
  split; [exact A|]. split; [apply records_holds; exact Hh|].
  split; [apply (holds_split _ _ Hh)|].
  unfold getAppearance. rewrite Ha. reflexivity.
Qed.

Lemma addData_acts_on_records_witness :
  records data_flags_power
    = Some [(SERVICE_DATA, [1; 2; 3]); (FLAGS, [6]); (TX_POWER_LEVEL, [7])] /\
  exists st',
    addData SERVICE_DATA (Some [9; 8]) 1 data_flags_power
      = Done (BLE_ERROR_NONE, st') /\
    records st' = Some [(FLAGS, [6]); (TX_POWER_LEVEL, [7]); (SERVICE_DATA, [9])] /\
    getPayloadLen st' = 9 /\
    getAppearance st' = getAppearance data_flags_power.
Proof.
  split; [reflexivity|].
  apply (addData_acts_on_records data_flags_power
           [(SERVICE_DATA, [1; 2; 3]); (FLAGS, [6]); (TX_POWER_LEVEL, [7])]
           SERVICE_DATA [9; 8] 1).
  - reflexivity.
  - vm_compute. split; [discriminate|reflexivity].
  - simpl. lia.
Defined.

(** X2.  On every store that decodes into records [addData] completes
    and leaves a store that decodes into records, unless the type is of
    the append group, a record of it is present and
    [_payloadLen + len = 31]; then, and only then, it accesses
    [_payload] outside its bounds. *)
Theorem addData_outside_iff st (recs : list record) ty bytes len :
  records st = Some recs ->
  0 <= ty < 256 ->
  0 <= len <= Z.of_nat (length bytes) ->
  (addData ty (Some bytes) len st = OutOfBounds <->
   In ty append_cases /\ Exists (fun r => r.1 = ty) recs /\
   getPayloadLen st + len = 31) /\
  (addData ty (Some bytes) len st = OutOfBounds \/
   exists r st' recs',
     addData ty (Some bytes) len st = Done (r, st') /\ records st' = Some recs').
Proof.
  intros H Hty Hlen. apply records_holds in H.
  pose proof (addData_simulates st recs ty bytes len H Hty Hlen) as A.
  pose proof (addData_records_outside ty (take (Z.to_nat len) bytes) recs) as O.
  destruct (holds_split _ _ H) as (_ & Hn & _).
  destruct (arg_split bytes len Hlen) as (_ & Hw).
  rewrite Hw, <- Hn in O. unfold getPayloadLen.
  destruct (addData_records ty _ recs) as [r|r recs'|].
  - split; [|right; exists r, st, recs; split; [exact A|apply records_holds, H]].
    rewrite A. split; [discriminate|]. intros C. apply O in C. discriminate.
  - destruct A as (st' & A & Hh & _).
    split; [|right; exists r, st', recs'; split; [exact A|apply records_holds, Hh]].
    rewrite A. split; [discriminate|]. intros C. apply O in C. discriminate.
  - split; [|left; exact A]. split; [intros _; apply O; reflexivity|intros _; exact A].
Qed.

Lemma addData_outside_iff_witness :
  records ids_only = Some [(COMPLETE_LIST_16BIT_SERVICE_IDS, [1; 2])] /\
  (addData COMPLETE_LIST_16BIT_SERVICE_IDS (Some (replicate 27 7)) 27 ids_only
     = OutOfBounds <->
   In COMPLETE_LIST_16BIT_SERVICE_IDS append_cases /\
   Exists (fun r => r.1 = COMPLETE_LIST_16BIT_SERVICE_IDS)
     [(COMPLETE_LIST_16BIT_SERVICE_IDS, [1; 2])] /\
   getPayloadLen ids_only + 27 = 31).
Proof.
  split; [reflexivity|].
  apply (addData_outside_iff ids_only [(COMPLETE_LIST_16BIT_SERVICE_IDS, [1; 2])]
           COMPLETE_LIST_16BIT_SERVICE_IDS (replicate 27 7) 27).
  - reflexivity.
  - vm_compute. split; [discriminate|reflexivity].
  - simpl. lia.
Defined.





(** X5.  A result of [addData] other than [BLE_ERROR_NONE] comes with an
    unchanged store, with one exception: for a type of the overwrite
    group whose record has a value of [len] bytes the result is
    [BLE_ERROR_BUFFER_OVERFLOW] and the value has been overwritten. *)
Theorem addData_failure_leaves_store st (recs : list record) ty bytes len r st' :
  records st = Some recs ->
  0 <= ty < 256 ->
  0 <= len <= Z.of_nat (length bytes) ->
  addData ty (Some bytes) len st = Done (r, st') ->
  r <> BLE_ERROR_NONE ->
  st' = st \/
  (r = BLE_ERROR_BUFFER_OVERFLOW /\ In ty overwrite_cases /\
   exists pre v post,
     recs = pre ++ (ty, v) :: post /\ Forall (fun x => x.1 <> ty) pre /\
     len = Z.of_nat (length v) /\
     records st' = Some (pre ++ (ty, take (Z.to_nat len) bytes) :: post)).
Proof.
  intros H Hty Hlen Hrun Hr. apply records_holds in H.
  pose proof (addData_simulates st recs ty bytes len H Hty Hlen) as A.
  destruct (arg_split bytes len Hlen) as (_ & Hw).
  unfold addData_records in A. rewrite Hw in A.
  destruct (split_first ty recs) as [[[pre v] post]|] eqn:Es.
  - destruct (split_first_some _ _ _ _ _ Es) as [-> Hpre].
    destruct (is_case overwrite_cases ty) eqn:Eo.
    + destruct (len =? Z.of_nat (length v)) eqn:El.
      * right. destruct A as (st1 & A & Hh & _). rewrite A in Hrun.
        injection Hrun as <- <-. split; [reflexivity|].
        split; [apply is_case_In, Eo|]. exists pre, v, post.
        split; [reflexivity|]. split; [exact Hpre|].
        split; [apply Z.eqb_eq, El|apply records_holds, Hh].
      * left. destruct (_ <=? 31).
        -- destruct A as (st1 & A & _). rewrite A in Hrun.
           injection Hrun as <- _. contradiction.
        -- rewrite A in Hrun. injection Hrun as _ <-. reflexivity.
    + left. destruct (is_case append_cases ty).
      * destruct (_ <=? 31).
        -- destruct (_ =? 31).
           ++ rewrite A in Hrun. discriminate.
           ++ destruct A as (st1 & A & _). rewrite A in Hrun.
              injection Hrun as <- _. contradiction.
        -- rewrite A in Hrun. injection Hrun as _ <-. reflexivity.
      * rewrite A in Hrun. injection Hrun as _ <-. reflexivity.
  - left. destruct (_ >? 31).
    + rewrite A in Hrun. injection Hrun as _ <-. reflexivity.
    + destruct A as (st1 & A & _). rewrite A in Hrun.
      injection Hrun as <- _. contradiction.
Qed.

Lemma addData_failure_leaves_store_witness :
  records data_flags_power
    = Some [(SERVICE_DATA, [1; 2; 3]); (FLAGS, [6]); (TX_POWER_LEVEL, [7])] /\
  exists st',
    addData FLAGS (Some [9]) 1 data_flags_power
      = Done (BLE_ERROR_BUFFER_OVERFLOW, st') /\
    (st' = data_flags_power \/
     (BLE_ERROR_BUFFER_OVERFLOW = BLE_ERROR_BUFFER_OVERFLOW /\
      In FLAGS overwrite_cases /\
      exists pre v post,
        [(SERVICE_DATA, [1; 2; 3]); (FLAGS, [6]); (TX_POWER_LEVEL, [7])]
          = pre ++ (FLAGS, v) :: post /\
        Forall (fun x => x.1 <> FLAGS) pre /\
        1 = Z.of_nat (length v) /\
        records st' = Some (pre ++ (FLAGS, take (Z.to_nat 1) [9]) :: post))).
Proof.
  split; [reflexivity|].
  eexists. split; [vm_compute; reflexivity|].
  apply (addData_failure_leaves_store data_flags_power
           [(SERVICE_DATA, [1; 2; 3]); (FLAGS, [6]); (TX_POWER_LEVEL, [7])]
           FLAGS [9] 1 BLE_ERROR_BUFFER_OVERFLOW).
  - reflexivity.
  - vm_compute. split; [discriminate|reflexivity].
  - simpl. lia.
  - vm_compute. reflexivity.
  - discriminate.
Defined.

(** X6.  [addData] returns [BLE_ERROR_NOT_IMPLEMENTED] exactly when a
    record of the type is present and the type is in neither group of
    [case] labels, and then the store is unchanged.  Every enumerator of
    [DataType_t] is in one of the groups, so for an enumerator this
    result never comes. *)
Theorem addData_not_implemented st (recs : list record) ty bytes len :
  records st = Some recs ->
  0 <= ty < 256 ->
  0 <= len <= Z.of_nat (length bytes) ->
  (Exists (fun r => r.1 = ty) recs /\
   ~ In ty overwrite_cases /\ ~ In ty append_cases ->
   addData ty (Some bytes) len st = Done (BLE_ERROR_NOT_IMPLEMENTED, st)) /\
  (forall st',
     addData ty (Some bytes) len st = Done (BLE_ERROR_NOT_IMPLEMENTED, st') ->
     st' = st /\ Exists (fun r => r.1 = ty) recs /\
     ~ In ty overwrite_cases /\ ~ In ty append_cases) /\
  (In ty DataType_enumerators ->
   forall st',
     addData ty (Some bytes) len st <> Done (BLE_ERROR_NOT_IMPLEMENTED, st')).
Proof.
  intros H Hty Hlen. apply records_holds in H.
  pose proof (addData_simulates st recs ty bytes len H Hty Hlen) as A.
  destruct (addData_records_not_implemented ty (take (Z.to_nat len) bytes) recs)
    as [Hiff Hnever].
  assert (Hback : forall st',
    addData ty (Some bytes) len st = Done (BLE_ERROR_NOT_IMPLEMENTED, st') ->
    st' = st /\ Exists (fun r => r.1 = ty) recs /\
    ~ In ty overwrite_cases /\ ~ In ty append_cases).
  { intros st' Hrun.
    destruct (addData_records ty _ recs) as [r|r recs'|].
    - rewrite A in Hrun. injection Hrun as -> <-.
      split; [reflexivity|]. apply Hiff. reflexivity.
    - destruct A as (st1 & A & _). rewrite A in Hrun. injection Hrun as -> _.
      exfalso. exact (Hnever recs' eq_refl).
    - rewrite A in Hrun. discriminate. }
  split; [|split; [exact Hback|]].
  - intros Hc. apply Hiff in Hc. rewrite Hc in A. exact A.
  - intros Hen st' Hrun. destruct (Hback st' Hrun) as (_ & _ & Ho & Ha).
    destruct (enumerator_in_a_group ty Hen); contradiction.
Qed.

Lemma addData_not_implemented_witness :
  records ids_only = Some [(COMPLETE_LIST_16BIT_SERVICE_IDS, [1; 2])] /\
  In COMPLETE_LIST_16BIT_SERVICE_IDS DataType_enumerators /\
  forall st',
    addData COMPLETE_LIST_16BIT_SERVICE_IDS (Some [3; 4]) 2 ids_only
    <> Done (BLE_ERROR_NOT_IMPLEMENTED, st').
Proof.
  split; [reflexivity|].
  assert (Hin : In COMPLETE_LIST_16BIT_SERVICE_IDS DataType_enumerators)
    by (do 2 right; left; reflexivity).
  split; [exact Hin|].
  destruct (addData_not_implemented ids_only
              [(COMPLETE_LIST_16BIT_SERVICE_IDS, [1; 2])]
              COMPLETE_LIST_16BIT_SERVICE_IDS [3; 4] 2) as (_ & _ & Hnever).
  - reflexivity.
  - vm_compute. split; [discriminate|reflexivity].
  - simpl. lia.
  - exact (Hnever Hin).
Defined.



(** ** Sequences of calls *)

(** X8.  A sequence of valid calls on a new object never runs without
    end.  It either accesses [_payload] outside its bounds or completes,
    and then the buffer decodes into records of pairwise distinct types
    that take exactly [_payloadLen] bytes, at most 31. *)
Theorem perform_all_keeps_distinct_records cs :
  Forall valid_call cs ->
  perform_all cs GapAdvertisingData_new = OutOfBounds \/
  exists st' recs',
    perform_all cs GapAdvertisingData_new = Done (tt, st') /\
    records st' = Some recs' /\
    NoDup recs'.*1 /\
    getPayloadLen st' = occupied recs' /\
    getPayloadLen st' <= GAP_ADVERTISING_DATA_MAX_PAYLOAD.
Proof.
  assert (G : forall cs st (recs : list record),
    holds st recs -> NoDup recs.*1 -> Forall valid_call cs ->
    perform_all cs st = OutOfBounds \/
    exists st' recs',
      perform_all cs st = Done (tt, st') /\ holds st' recs' /\ NoDup recs'.*1).
  { clear cs. induction cs as [|c cs IH]; intros st recs H Hd Hcs.
    - right. exists st, recs. auto.
    - inversion Hcs as [|? ? Hc Hcs']; subst. cbn [perform_all]. unfold bind.
      destruct (perform_outcome st recs c H Hc) as [E|(st1 & recs1 & E & _)];
        rewrite E; [left; reflexivity|].
      destruct (perform_distinct st recs c st1 H Hd Hc E) as (recs2 & H2 & Hd2).
      exact (IH st1 recs2 H2 Hd2 Hcs'). }
  intros Hcs.
  destruct (G cs GapAdvertisingData_new [] holds_new NoDup_nil_2 Hcs)
    as [E|(st' & recs' & E & Hh & Hd)]; [left; exact E|].
  right. exists st', recs'. split; [exact E|].
  split; [apply records_holds, Hh|]. split; [exact Hd|].
  split; [apply (holds_split _ _ Hh)|apply Hh].
Qed.

Lemma perform_all_keeps_distinct_records_witness :
  Forall valid_call
    [CallAddFlags 6; CallAddTxPower 5; CallAddTxPower 7;
     CallUpdateData FLAGS (Some [2]) 1; CallAddAppearance 512] /\
  exists st',
    perform_all
      [CallAddFlags 6; CallAddTxPower 5; CallAddTxPower 7;
       CallUpdateData FLAGS (Some [2]) 1; CallAddAppearance 512]
      GapAdvertisingData_new = Done (tt, st') /\
    records st'
      = Some [(FLAGS, [2]); (TX_POWER_LEVEL, [7]); (APPEARANCE, [0; 2])].
Proof.
  assert (Hv : Forall valid_call
    [CallAddFlags 6; CallAddTxPower 5; CallAddTxPower 7;
     CallUpdateData FLAGS (Some [2]) 1; CallAddAppearance 512]).
  { do 3 (constructor; [exact I|]).
    constructor; [right; exists [2]; split; [reflexivity|simpl; lia]|].
    constructor; [exact I|constructor]. }
  split; [exact Hv|].
  destruct (perform_all_keeps_distinct_records _ Hv)
    as [E|(st' & recs' & E & Hr & _)].
  - vm_compute in E. discriminate E.
  - exists st'. split; [exact E|].
    vm_compute in E. injection E as <-. vm_compute. reflexivity.
Defined.

(** X9.  A sequence of valid calls in which [addData] is not called with
    a type of the append group always completes: no access leaves the
    array, and the buffer decodes into records afterwards. *)
Theorem perform_all_completes cs :
  Forall valid_call cs ->
  Forall (fun c => forall ty p len,
            c = CallAddData ty p len -> ~ In ty append_cases) cs ->
  exists st' recs',
    perform_all cs GapAdvertisingData_new = Done (tt, st') /\
    records st' = Some recs'.
Proof.
  assert (G : forall cs st (recs : list record),
    holds st recs -> Forall valid_call cs ->
    Forall (fun c => forall ty p len,
              c = CallAddData ty p len -> ~ In ty append_cases) cs ->
    exists st' recs', perform_all cs st = Done (tt, st') /\ holds st' recs').
  { clear cs. induction cs as [|c cs IH]; intros st recs H Hcs Hno.
    - exists st, recs. auto.
    - inversion Hcs as [|? ? Hc Hcs']; subst.
      inversion Hno as [|? ? Hn Hno']; subst. cbn [perform_all]. unfold bind.
      destruct (perform_outcome st recs c H Hc) as [E|(st1 & recs1 & E & H1)].
      + exfalso.
        destruct (perform_outside st recs c H Hc E) as (ty & p & len & -> & Hin & _).
        exact (Hn ty p len eq_refl Hin).
      + rewrite E. exact (IH st1 recs1 H1 Hcs' Hno'). }
  intros Hcs Hno.
  destruct (G cs GapAdvertisingData_new [] holds_new Hcs Hno)
    as (st' & recs' & E & Hh).
  exists st', recs'. split; [exact E|apply records_holds, Hh].
Qed.

Lemma perform_all_completes_witness :
  Forall valid_call
    [CallAddData SERVICE_DATA (Some [1; 2; 3]) 3; CallAddFlags 6; CallClear;
     CallAddTxPower (-20)] /\
  exists st' recs',
    perform_all
      [CallAddData SERVICE_DATA (Some [1; 2; 3]) 3; CallAddFlags 6; CallClear;
       CallAddTxPower (-20)]
      GapAdvertisingData_new = Done (tt, st') /\
    records st' = Some recs'.
Proof.
  assert (Hv : Forall valid_call
    [CallAddData SERVICE_DATA (Some [1; 2; 3]) 3; CallAddFlags 6; CallClear;
     CallAddTxPower (-20)]).
  { repeat constructor; try (vm_compute; congruence).
    exists [1; 2; 3]. split; [reflexivity|]. simpl. lia. }
  split; [exact Hv|].
  apply (perform_all_completes _ Hv).
  repeat constructor; intros ty p len E; try discriminate E.
  injection E as <- _ _. unfold append_cases, SERVICE_DATA. cbn [In].
  intros Hin. repeat (destruct Hin as [Hin|Hin]; [discriminate Hin|]). exact Hin.
Defined.

(** ** [updateData] and [addData] *)

(** X10.  For a type of the overwrite group whose record has a value of
    [len] bytes, [updateData] and [addData] leave the same store, with
    the value overwritten in place; [updateData] reports
    [BLE_ERROR_NONE] for it and [addData] [BLE_ERROR_BUFFER_OVERFLOW]. *)
Theorem updateData_writes_as_addData st (pre post : list record) ty v bytes len :
  records st = Some (pre ++ (ty, v) :: post) ->
  Forall (fun r => r.1 <> ty) pre ->
  In ty overwrite_cases ->
  0 < len <= Z.of_nat (length bytes) ->
  len = Z.of_nat (length v) ->
  exists st',
    updateData ty (Some bytes) len st = Done (BLE_ERROR_NONE, st') /\
    addData ty (Some bytes) len st = Done (BLE_ERROR_BUFFER_OVERFLOW, st') /\
    records st' = Some (pre ++ (ty, take (Z.to_nat len) bytes) :: post).
Proof.
  intros H Hpre Hty Hlen Hv. apply records_holds in H.
  destruct (addData_replace_same st pre post ty v bytes len H Hpre Hty)
    as (st1 & A & Hh1 & Hn1 & Hd1 & Ha1); [lia|exact Hv|].
  pose proof (updateData_holds st _ ty bytes len H Hlen) as U.
  rewrite (update_records_first ty _ pre post v) in U.
  - destruct U as (st2 & U & Hh2 & Hn2 & Hd2 & Ha2).
    exists st1. split; [|split; [exact A|apply records_holds, Hh1]].
    rewrite U. do 2 f_equal.
    apply (store_ext st2 st1 _ Hh2 Hh1); [|congruence].
    rewrite Hn2, Hd2, <- Hd1. reflexivity.
  - eapply Forall_impl; [exact Hpre|]. intros r Hr [E _]. exact (Hr E).
  - rewrite length_take. lia.
Qed.

Lemma updateData_writes_as_addData_witness :
  records data_flags_power
    = Some ([(SERVICE_DATA, [1; 2; 3])] ++ (FLAGS, [6]) :: [(TX_POWER_LEVEL, [7])]) /\
  exists st',
    updateData FLAGS (Some [9]) 1 data_flags_power = Done (BLE_ERROR_NONE, st') /\
    addData FLAGS (Some [9]) 1 data_flags_power
      = Done (BLE_ERROR_BUFFER_OVERFLOW, st') /\
    records st'
      = Some ([(SERVICE_DATA, [1; 2; 3])]
                ++ (FLAGS, take (Z.to_nat 1) [9]) :: [(TX_POWER_LEVEL, [7])]).
Proof.
  split; [reflexivity|].
  apply (updateData_writes_as_addData data_flags_power
           [(SERVICE_DATA, [1; 2; 3])] [(TX_POWER_LEVEL, [7])] FLAGS [6] [9] 1).
  - reflexivity.
  - repeat constructor. discriminate.
  - left. reflexivity.
  - simpl. lia.
  - reflexivity.
Defined.

(** ** [clear], and the appearance record *)

(** X11.  After [clear] on a store that decodes into records, the 31
    bytes are 0, there is no record and the cached appearance is what it
    was; [updateData] then finds nothing for any type, and [addData] of
    any type with up to 29 bytes succeeds and leaves exactly that
    record, while 30 bytes and more are refused. *)
Theorem clear_then_add st (recs : list record) ty bytes len :
  records st = Some recs ->
  0 <= ty < 256 ->
  0 <= len <= Z.of_nat (length bytes) ->
  exists st0,
    clear st = Done (tt, st0) /\
    getPayload st0 = replicate 31 0 /\
    getPayloadLen st0 = 0 /\
    records st0 = Some [] /\
    getAppearance st0 = getAppearance st /\
    (0 < len -> updateData ty (Some bytes) len st0
                = Done (BLE_ERROR_UNSPECIFIED, st0)) /\
    (len <= 29 ->
     exists st',
       addData ty (Some bytes) len st0 = Done (BLE_ERROR_NONE, st') /\
       records st' = Some [(ty, take (Z.to_nat len) bytes)]) /\
    (29 < len ->
     addData ty (Some bytes) len st0 = Done (BLE_ERROR_BUFFER_OVERFLOW, st0)).
Proof.
  intros H Hty Hlen. apply records_holds in H.
  destruct (holds_clear st recs H) as (st0 & C & H0 & Ha).
  exists st0. split; [exact C|].
  assert (E : st0 = mkGapAdvertisingData
                      (replicate (Z.to_nat GAP_ADVERTISING_DATA_MAX_PAYLOAD) 0
                         ++ drop (Z.to_nat GAP_ADVERTISING_DATA_MAX_PAYLOAD)
                              (_payload st))
                      0 (_appearance st))
    by (unfold clear in C; congruence).
  assert (Hp : getPayload st0 = replicate 31 0).
  { rewrite E. unfold getPayload. cbn [_payload].
    destruct H as (Hl & _).
    rewrite drop_ge by lia. apply app_nil_r. }
  assert (Hn : getPayloadLen st0 = 0) by (rewrite E; reflexivity).
  split; [exact Hp|]. split; [exact Hn|].
  split; [apply records_holds, H0|].
  split; [unfold getAppearance; rewrite Ha; reflexivity|].
  unfold getPayloadLen in Hn.
  split; [|split].
  - intros Hpos.
    exact (updateData_holds st0 [] ty bytes len H0 (conj Hpos (proj2 Hlen))).
  - intros H29.
    pose proof (addData_new st0 [] ty bytes len H0 (Forall_nil_2 _) Hty Hlen) as A.
    rewrite Hn, Z.gtb_ltb, (proj2 (Z.ltb_ge _ _)) in A by lia.
    destruct A as (st' & A & Hh & _). exists st'.
    split; [exact A|apply records_holds, Hh].
  - intros H29.
    pose proof (addData_new st0 [] ty bytes len H0 (Forall_nil_2 _) Hty Hlen) as A.
    rewrite Hn in A. rewrite Z.gtb_ltb, (proj2 (Z.ltb_lt _ _)) in A by lia.
    exact A.
Qed.

Lemma clear_then_add_witness :
  records data_flags_power
    = Some [(SERVICE_DATA, [1; 2; 3]); (FLAGS, [6]); (TX_POWER_LEVEL, [7])] /\
  exists st0,
    clear data_flags_power = Done (tt, st0) /\
    records st0 = Some [] /\
    exists st',
      addData COMPLETE_LOCAL_NAME (Some (replicate 29 65)) 29 st0
        = Done (BLE_ERROR_NONE, st') /\
      records st' = Some [(COMPLETE_LOCAL_NAME, replicate 29 65)].
Proof.
  split; [reflexivity|].
  destruct (clear_then_add data_flags_power
              [(SERVICE_DATA, [1; 2; 3]); (FLAGS, [6]); (TX_POWER_LEVEL, [7])]
              COMPLETE_LOCAL_NAME (replicate 29 65) 29)
    as (st0 & C & _ & _ & Hr & _ & _ & Hadd & _).
  - reflexivity.
  - vm_compute. split; [discriminate|reflexivity].
  - simpl. lia.
  - exists st0. split; [exact C|]. split; [exact Hr|].
    destruct Hadd as (st' & A & R); [lia|].
    exists st'. split; [exact A|]. rewrite R. reflexivity.
Defined.

(** X12.  When [addAppearance(a)] returns [BLE_ERROR_NONE] on a store
    whose records have pairwise distinct types, the buffer holds an
    appearance record, the one [findField] returns, whose two bytes are
    the low and the high byte of [a], and [getAppearance] returns
    [a]. *)
Theorem addAppearance_record st (recs : list record) a st' :
  records st = Some recs ->
  NoDup recs.*1 ->
  0 <= a < 65536 ->
  addAppearance a st = Done (BLE_ERROR_NONE, st') ->
  exists pre post,
    records st' = Some (pre ++ (APPEARANCE, [a mod 256; a / 256]) :: post) /\
    findField APPEARANCE st' = Done (Some (occupied pre), st') /\
    getAppearance st' = a.
Proof.
  intros H Hd Ha Hrun. apply records_holds in H.
  unfold addAppearance in Hrun.
  set (st0 := mkGapAdvertisingData (_payload st) (_payloadLen st) (u16 a)).
  change (addData APPEARANCE (Some (appearance_bytes a)) 2 st0
          = Done (BLE_ERROR_NONE, st')) in Hrun.
  assert (Hu : u16 a = a) by (unfold u16; apply Z.mod_small; lia).
  assert (H0 : holds st0 recs) by exact H.
  pose proof (addData_simulates st0 recs APPEARANCE (appearance_bytes a) 2 H0) as A.
  assert (Hb : take (Z.to_nat 2) (appearance_bytes a) = [a mod 256; a / 256]).
  { unfold appearance_bytes. rewrite Hu. reflexivity. }
  rewrite Hb in A.
  destruct (addData_records APPEARANCE _ recs) as [r|r recs'|] eqn:E.
  - exfalso. rewrite A in Hrun by (vm_compute; intuition congruence).
    injection Hrun as -> _. revert E. unfold addData_records.
    repeat match goal with
           | |- context [match ?x with _ => _ end] => destruct x
           end; discriminate.
  - destruct A as (st1 & A & Hh & Hap);
      [vm_compute; split; [discriminate|reflexivity]|simpl; lia|].
    rewrite A in Hrun. injection Hrun as -> ->.
    destruct (addData_records_found _ _ _ _ E Hd)
      as (pre & rest & post & -> & Hpre & Hrest).
    rewrite Hrest in Hh.
    + exists pre, post. apply records_holds in Hh. split; [exact Hh|].
      split; [exact (findField_first st' pre post APPEARANCE _ Hh Hpre)|].
      unfold getAppearance. rewrite Hap. cbn [st0 _appearance].
      rewrite Hu. exact Hu.
    + unfold append_cases, APPEARANCE. cbn [In]. intros Hin.
      repeat (destruct Hin as [Hin|Hin]; [discriminate Hin|]). exact Hin.
  - rewrite A in Hrun by (vm_compute; intuition congruence). discriminate.
Qed.

Lemma addAppearance_record_witness :
  records data_flags_power
    = Some [(SERVICE_DATA, [1; 2; 3]); (FLAGS, [6]); (TX_POWER_LEVEL, [7])] /\
  exists st',
    addAppearance 833 data_flags_power = Done (BLE_ERROR_NONE, st') /\
    exists pre post,
      records st' = Some (pre ++ (APPEARANCE, [833 mod 256; 833 / 256]) :: post) /\
      findField APPEARANCE st' = Done (Some (occupied pre), st') /\
      getAppearance st' = 833.
Proof.
  split; [reflexivity|].
  eexists. split; [vm_compute; reflexivity|].
  apply (addAppearance_record data_flags_power
           [(SERVICE_DATA, [1; 2; 3]); (FLAGS, [6]); (TX_POWER_LEVEL, [7])] 833).
  - reflexivity.
  - apply (bool_decide_unpack _). vm_compute. exact I.
  - lia.
  - vm_compute. reflexivity.
Defined.

(** * Properties of the requests to the GATT client *)

Section CharacteristicProperties.

Context `{codes : Characteristic.blecommon} {S : Type} `{client : GattClient.t S}.

Import Characteristic.

Lemma cccd_bits (i n : bool) :
  let v := Z.lor (Z.b2z n) (Z.shiftl (Z.b2z i) 1) in
  v = Z.b2z n + 2 * Z.b2z i /\ Z.testbit v 0 = n /\ Z.testbit v 1 = i /\
  0 <= v <= 3.
Proof. destruct i, n; vm_compute; repeat split; congruence. Qed.

Lemma serve_orderly c r (w : world) :
  BLE_ERROR_INVALID_STATE <> 0 ->
  BLE_ERROR_OPERATION_NOT_PERMITTED <> 0 ->
  orderly c (snd w) = true ->
  orderly c (snd (snd (serve c r w))) = true.
Proof.
  intros Hi Hp Hw. destruct w as [s log]. cbn [snd] in Hw.
  apply Z.eqb_neq in Hi, Hp.
  destruct c as [g [pr pw pwo pn pi] ch vh].
  destruct r as [offset|offset onRead|len value|len value|len value onRead|
                 |i n cb];
    cbn [serve].
  - unfold read. cbn [props props_read gattc connHandle valueHandle fst snd].
    destruct pr; cbn [negb]; [|exact Hw]. destruct g; cbn [negb]; [|exact Hw].
    destruct (GattClient.read ch vh offset s) as [answer s'].
    cbn [snd orderly props props_read gattc connHandle valueHandle].
    rewrite !Z.eqb_refl, Hw. reflexivity.
  - unfold read_callback, read.
    cbn [props props_read gattc connHandle valueHandle fst snd].
    destruct pr; cbn [negb]; [|rewrite Hp; exact Hw].
    destruct g; cbn [negb]; [|rewrite Hi; exact Hw].
    destruct (GattClient.read ch vh offset s) as [answer s'].
    destruct (answer =? 0) eqn:E; cbn [negb snd fst orderly props props_read gattc
                                         connHandle valueHandle];
      rewrite ?E, !Z.eqb_refl, Hw; reflexivity.
  - unfold write. cbn [props props_write gattc connHandle valueHandle fst snd].
    destruct pw; cbn [negb]; [|exact Hw]. destruct g; cbn [negb]; [|exact Hw].
    destruct (GattClient.write _ ch vh len value s) as [answer s'].
    cbn [snd orderly props props_write gattc connHandle valueHandle].
    rewrite !Z.eqb_refl, Hw. reflexivity.
  - unfold writeWoResponse.
    cbn [props props_writeWoResp gattc connHandle valueHandle fst snd].
    destruct pwo; cbn [negb]; [|exact Hw]. destruct g; cbn [negb]; [|exact Hw].
    destruct (GattClient.write _ ch vh len value s) as [answer s'].
    cbn [snd orderly props props_writeWoResp gattc connHandle valueHandle].
    rewrite !Z.eqb_refl, Hw. reflexivity.
  - unfold write_callback, write.
    cbn [props props_write gattc connHandle valueHandle fst snd].
    destruct pw; cbn [negb]; [|rewrite Hp; exact Hw].
    destruct g; cbn [negb]; [|rewrite Hi; exact Hw].
    destruct (GattClient.write _ ch vh len value s) as [answer s'].
    destruct (answer =? 0) eqn:E; cbn [negb snd fst orderly props props_write gattc
                                         connHandle valueHandle];
      rewrite ?E, !Z.eqb_refl, Hw; reflexivity.
  - unfold discoverDescriptors. cbn [gattc connHandle valueHandle fst snd].
    destruct g; cbn [negb]; [|exact Hw].
    destruct (GattClient.discoverCharacteristicDescriptors ch vh s) as [err s'].
    cbn [snd orderly gattc connHandle valueHandle].
    rewrite !Z.eqb_refl, Hw. reflexivity.
  - unfold setCCCD.
    cbn [props props_notify props_indicate gattc connHandle valueHandle fst snd].
    destruct (cccd_bits i n) as (_ & H0 & H1 & Hlo & Hhi).
    destruct (negb pn && n) eqn:En; [exact Hw|].
    destruct (negb pi && i) eqn:Ei; [exact Hw|].
    cbn [snd orderly props props_notify props_indicate gattc connHandle valueHandle].
    rewrite H0, H1, !Z.eqb_refl, Hw, Bool.eqb_reflx.
    rewrite (proj2 (Z.leb_le _ _) Hlo), (proj2 (Z.leb_le _ _) Hhi).
    destruct pn, n, pi, i; try discriminate; reflexivity.
Qed.

(** X13.  Whatever the client answers, the log of any sequence of calls
    on a characteristic stays orderly: a read request is logged only
    with the read property, a write request only with the write
    property, a write command only with the write-without-response
    property, and each of them and a descriptor discovery only through a
    client pointer that is not null and with the handles of the
    characteristic; a one-shot callback is launched only right after the
    request it belongs to, and only when the client answered that
    request with 0; the CCCD value handed to the setter has bit 0 only
    with the notify property and bit 1 only with the indicate
    property. *)
Theorem serve_all_orderly c rs (w : world) :
  BLE_ERROR_INVALID_STATE <> 0 ->
  BLE_ERROR_OPERATION_NOT_PERMITTED <> 0 ->
  orderly c (snd w) = true ->
  orderly c (snd (serve_all c rs w)) = true.
Proof.
  intros Hi Hp. revert w. induction rs as [|r rs IH]; intros w Hw; [exact Hw|].
  cbn [serve_all]. apply IH. apply serve_orderly; assumption.
Qed.

(** X14.  The property is checked before the client pointer: [read],
    [write], [writeWoResponse] and the two callback overloads return
    [BLE_ERROR_OPERATION_NOT_PERMITTED] when the property is missing,
    also when the client pointer is null, and
    [BLE_ERROR_INVALID_STATE] when the property is there and the pointer
    is null, as [discoverDescriptors] does for a null pointer; in all
    these cases nothing is asked of the client and no callback is
    launched. *)
Theorem refused_requests_change_nothing c (w : world) :
  BLE_ERROR_INVALID_STATE <> 0 ->
  BLE_ERROR_OPERATION_NOT_PERMITTED <> 0 ->
  (props_read (props c) = false ->
   forall offset onRead,
     read c offset w = (BLE_ERROR_OPERATION_NOT_PERMITTED, w) /\
     read_callback c offset onRead w = (BLE_ERROR_OPERATION_NOT_PERMITTED, w)) /\
  (props_write (props c) = false ->
   forall len value onRead,
     write c len value w = (BLE_ERROR_OPERATION_NOT_PERMITTED, w) /\
     write_callback c len value onRead w
       = (BLE_ERROR_OPERATION_NOT_PERMITTED, w)) /\
  (props_writeWoResp (props c) = false ->
   forall len value,
     writeWoResponse c len value w = (BLE_ERROR_OPERATION_NOT_PERMITTED, w)) /\
  (gattc c = false ->
   discoverDescriptors c w = (BLE_ERROR_INVALID_STATE, w) /\
   (props_read (props c) = true ->
    forall offset onRead,
      read c offset w = (BLE_ERROR_INVALID_STATE, w) /\
      read_callback c offset onRead w = (BLE_ERROR_INVALID_STATE, w)) /\
   (props_write (props c) = true ->
    forall len value onRead,
      write c len value w = (BLE_ERROR_INVALID_STATE, w) /\
      write_callback c len value onRead w = (BLE_ERROR_INVALID_STATE, w)) /\
   (props_writeWoResp (props c) = true ->
    forall len value,
      writeWoResponse c len value w = (BLE_ERROR_INVALID_STATE, w))).
Proof.
  intros Hi Hp. apply Z.eqb_neq in Hi, Hp.
  unfold read_callback, write_callback, read, write, writeWoResponse,
    discoverDescriptors.
  repeat split; intros;
    repeat match goal with
           | E : _ = false |- _ => rewrite E
           | E : _ = true |- _ => rewrite E
           end; cbn [negb]; rewrite ?Hi, ?Hp; reflexivity.
Qed.

(** [setCCCD] refuses with [BLE_ERROR_OPERATION_NOT_PERMITTED],
    and launches nothing, exactly when notifications are asked for
    without the notify property or indications without the indicate
    property.  Otherwise it returns [BLE_ERROR_NONE] and launches the
    setter with the value [notificationValue + 2 * indicationValue]; it
    does so with a null client pointer as well, which it does not
    check. *)
Lemma setCCCD_spec c (i n : bool) cb (w : S * list event) :
  setCCCD c i n cb w
  = if (n && negb (props_notify (props c)))
       || (i && negb (props_indicate (props c)))
    then (BLE_ERROR_OPERATION_NOT_PERMITTED, w)
    else
      (BLE_ERROR_NONE,
       (fst w,
        CCCDSetter_launch (gattc c) (connHandle c) (valueHandle c) cb
          (Z.b2z n + 2 * Z.b2z i) :: snd w)).
Proof.
  unfold setCCCD. destruct (cccd_bits i n) as (-> & _).
  destruct (props_notify (props c)), (props_indicate (props c)), n, i;
    reflexivity.
Qed.

End CharacteristicProperties.

Lemma serve_all_orderly_witness :
  @Characteristic.BLE_ERROR_INVALID_STATE example_codes <> 0 /\
  @Characteristic.BLE_ERROR_OPERATION_NOT_PERMITTED example_codes <> 0 /\
  Characteristic.orderly readable_characteristic [] = true /\
  Characteristic.orderly readable_characteristic
    (snd (@Characteristic.serve_all example_codes nat counting_client
            readable_characteristic
            [Characteristic.DoReadCallback 0 7;
             Characteristic.DoWriteCallback 2 (Some [1; 2]) 8;
             Characteristic.DoWriteWoResponse 2 (Some [1; 2]);
             Characteristic.DoSetCCCD true true 9;
             Characteristic.DoSetCCCD false true 9]
            (O, [])))
  = true.
Proof.
  split; [discriminate|]. split; [discriminate|]. split; [reflexivity|].
  apply (@serve_all_orderly example_codes nat counting_client).
  - discriminate.
  - discriminate.
  - reflexivity.
Defined.

Lemma refused_requests_change_nothing_witness :
  @Characteristic.BLE_ERROR_INVALID_STATE example_codes <> 0 /\
  @Characteristic.BLE_ERROR_OPERATION_NOT_PERMITTED example_codes <> 0 /\
  Characteristic.props_read (Characteristic.props detached_characteristic) = false /\
  @Characteristic.read_callback example_codes nat counting_client
    detached_characteristic 0 7 (O, [])
  = (8, (O, [])).
Proof.
  split; [discriminate|]. split; [discriminate|]. split; [reflexivity|].
  destruct (@refused_requests_change_nothing example_codes nat counting_client
              detached_characteristic (O, [])) as (Hread & _).
  - discriminate.
  - discriminate.
  - destruct (Hread eq_refl 0 7) as [_ Hcb]. exact Hcb.
Defined.

(** * Properties of the hand-over to the bootloader *)

Lemma construct_all_added ds w :
  DFUService.serviceAdded w = true -> DFUService.construct_all ds w = w.
Proof.
  revert w. induction ds as [|[d callback] ds IH]; intros w Hw; [reflexivity|].
  cbn [DFUService.construct_all]. unfold DFUService.DFUService_new.
  rewrite Hw. exact (IH w Hw).
Qed.

(** X15.  However many [DFUService] objects are constructed, the
    service is added and the write callback registered once, for the
    first object, and the hand-over callback kept is the one passed to
    the first constructor; the callbacks passed to later constructors
    are dropped. *)
Theorem first_construction_wins d callback ds callback0 :
  DFUService.construct_all ((d, callback) :: ds) (DFUService.at_start callback0)
  = DFUService.mkStatics true callback
      [DFUService.onDataWritten_registered (DFUService.this d);
       DFUService.addService (DFUService.this d)].
Proof.
  cbn [DFUService.construct_all]. rewrite construct_all_added; reflexivity.
Qed.

(** X16.  After any number of constructions, a write to the control
    point of an object starts the bootloader, after calling the
    hand-over callback of the first constructed object when that is not
    null, whichever object receives the write; a write to another
    handle does nothing.  The statics are as before in both cases. *)
Theorem handover_uses_first_callback d callback ds callback0 d' charHandle :
  DFUService.onDataWritten d' charHandle
    (DFUService.construct_all ((d, callback) :: ds)
       (DFUService.at_start callback0))
  = DFUService.mkStatics true callback
      ((if charHandle =? DFUService.controlHandle d' then
          DFUService.bootloader_start
            :: match callback with
               | Some cb => [DFUService.handoverCallback_called cb]
               | None => []
               end
        else [])
       ++ [DFUService.onDataWritten_registered (DFUService.this d);
           DFUService.addService (DFUService.this d)]).
Proof.
  cbn [DFUService.construct_all]. rewrite construct_all_added by reflexivity.
  unfold DFUService.onDataWritten, DFUService.DFUService_new, DFUService.at_start.
  cbn [DFUService.serviceAdded DFUService.handoverCallback DFUService.log].
  destruct (charHandle =? DFUService.controlHandle d'); [|reflexivity].
  destruct callback; reflexivity.
Qed.
